(** * icon_organizer.py: exact and perceptual de-duplication of icon files

    A shallow embedding of [src/icons/icon_organizer.py] and the
    properties of its two-stage de-duplication.

    Modelling choices.
    - A Python [dict] with list values ([defaultdict(list)]) is an
      association list in insertion order, which is the order in which
      [.items()] enumerates it.
    - [processed_hashes] is a finite set of strings ([gset string]).
    - The files below the output root are a finite map from path to
      content ([gmap string bytes]); [os.path.exists] is definedness of
      the lookup and [shutil.copy2] is an insert of the source content.
    - Exceptions are values of [result]; the two [try/except] helpers turn
      them into [None] as the source does.
    - [hashlib], [PIL] and [imagehash] are outside the repository: they are
      the Section variables [read_file], [md5_hexdigest] and [image_phash].
    - [os.path] follows [posixpath]; [str.lower] is modelled on ASCII.
    - Directories are not modelled: [os.makedirs] has no effect on the map
      of files, and a destination is assumed not to name a directory.
    - The source files are read through [read_file], which the run does
      not change: the output root holds none of the scanned files. *)

From Stdlib Require Import String Ascii List ZArith Lia Bool Permutation DecimalString.
From stdpp Require Import gmap strings fin_maps.
Import ListNotations.

Local Open Scope string_scope.
Local Open Scope list_scope.

(** ** Exceptions *)

Inductive exn : Type :=
| IndexError
| OSError (msg : string).

Inductive result (A : Type) : Type :=
| Ok (a : A)
| Raise (e : exn).
Arguments Ok {A} a.
Arguments Raise {A} e.

Definition bind {A B : Type} (m : result A) (k : A -> result B) : result B :=
  match m with
  | Ok a => k a
  | Raise e => Raise e
  end.

Notation "'let*' x ':=' m 'in' k" := (bind m (fun x => k))
  (at level 10, x pattern, m at level 100, k at level 200).

(** A [for] loop whose body may raise. *)
Fixpoint for_each {A S : Type} (body : S -> A -> result S) (l : list A) (s : S) : result S :=
  match l with
  | [] => Ok s
  | x :: l' => let* s' := body s x in for_each body l' s'
  end.

(** ** [os.path] *)

Module Path.

(** Splits at the last occurrence of [sep]: [Some (before, after)]. *)
Fixpoint rsplit (sep : ascii) (s : string) : option (string * string) :=
  match s with
  | EmptyString => None
  | String c r =>
      match rsplit sep r with
      | Some (b, a) => Some (String c b, a)
      | None => if Ascii.eqb c sep then Some (EmptyString, r) else None
      end
  end.

Fixpoint all_dots (s : string) : bool :=
  match s with
  | EmptyString => true
  | String c r => Ascii.eqb c "." && all_dots r
  end.

Fixpoint ends_with_slash (s : string) : bool :=
  match s with
  | EmptyString => false
  | String c EmptyString => Ascii.eqb c "/"
  | String _ r => ends_with_slash r
  end.

(** [os.path.basename]: what follows the last slash. *)
Definition basename (p : string) : string :=
  match rsplit "/" p with
  | Some (_, a) => a
  | None => p
  end.

(** [os.path.splitext]: the extension starts at the last dot of the last
    component, unless only dots precede it there. *)
Definition splitext (p : string) : string * string :=
  let '(dir, name) :=
    match rsplit "/" p with
    | Some (d, n) => (d +:+ "/", n)
    | None => (EmptyString, p)
    end in
  match rsplit "." name with
  | Some (b, e) => if all_dots b then (p, EmptyString) else (dir +:+ b, String "." e)
  | None => (p, EmptyString)
  end.

(** [os.path.join] of two components. *)
Definition join (a b : string) : string :=
  match b with
  | String "/" _ => b
  | _ =>
      match a with
      | EmptyString => b
      | _ => if ends_with_slash a then a +:+ b else a +:+ "/" +:+ b
      end
  end.

Definition lower_ascii (c : ascii) : ascii :=
  let n := nat_of_ascii c in
  if (65 <=? n)%nat && (n <=? 90)%nat then ascii_of_nat (n + 32) else c.

Fixpoint lower (s : string) : string :=
  match s with
  | EmptyString => EmptyString
  | String c r => String (lower_ascii c) (lower r)
  end.

End Path.

(** [str(n)] for a non-negative integer, as an f-string prints it. *)
Definition str_of_nat (n : nat) : string := NilZero.string_of_uint (Nat.to_uint n).

(** ** Dictionaries of path lists *)

Definition dict : Type := list (string * list string).

Definition keys (d : dict) : list string := map fst d.

(** [d[k].append(v)] on a [defaultdict(list)]. *)
Fixpoint dict_append (k v : string) (d : dict) : dict :=
  match d with
  | [] => [(k, [v])]
  | (k', vs) :: d' =>
      if String.eqb k' k then (k', vs ++ [v]) :: d'
      else (k', vs) :: dict_append k v d'
  end.

(** Python truthiness of an optional string: [None] and [''] are false. *)
Definition truthy (o : option string) : bool :=
  match o with
  | Some EmptyString => false
  | Some _ => true
  | None => false
  end.
Arguments truthy : simpl never.

(** [for p in paths: h = key(p); if h: groups[h].append(p)] *)
Definition group_add (key : string -> option string) (d : dict) (p : string) : dict :=
  match key p with
  | Some h => if truthy (Some h) then dict_append h p d else d
  | None => d
  end.

Definition group_by (key : string -> option string) (paths : list string) : dict :=
  fold_left (group_add key) paths [].

(** ** The image filter *)

Definition image_extensions : list string :=
  [".png"; ".jpg"; ".jpeg"; ".gif"; ".bmp"; ".webp"; ".ico"; ".svg"].

Definition is_image_file (file_path : string) : bool :=
  let '(_, ext) := Path.splitext file_path in
  existsb (String.eqb (Path.lower ext)) image_extensions.

(** ** Fingerprint distance *)

Definition zip (s1 s2 : string) : list (ascii * ascii) :=
  combine (list_ascii_of_string s1) (list_ascii_of_string s2).

(** [sum(c1 != c2 for c1, c2 in zip(phash, other_phash))] *)
Definition hamming_distance (phash other_phash : string) : nat :=
  list_sum (map (fun '(c1, c2) => Nat.b2n (negb (Ascii.eqb c1 c2))) (zip phash other_phash)).

(** ** The clustering pass *)

Definition in_set (x : string) (s : gset string) : bool := bool_decide (x ∈ s).

(** Body of the inner loop over [phash_groups.items()]. *)
Definition scan_step (T : Z) (phash : string) (acc : list string * gset string)
    (entry : string * list string) : list string * gset string :=
  let '(similar_group, processed) := acc in
  let '(other_phash, other_file_paths) := entry in
  if negb (String.eqb other_phash phash) && negb (in_set other_phash processed) then
    if (Z.of_nat (hamming_distance phash other_phash) <=? T)%Z then
      (similar_group ++ other_file_paths, {[other_phash]} ∪ processed)
    else acc
  else acc.

Definition scan_others (T : Z) (phash : string) (groups : dict)
    (acc : list string * gset string) : list string * gset string :=
  fold_left (scan_step T phash) groups acc.

(** Body of the outer loop: skip a processed fingerprint, otherwise seed a
    cluster, scan, and keep the cluster when it has more than one path. *)
Definition cluster_step (T : Z) (groups : dict) (st : list (list string) * gset string)
    (entry : string * list string) : list (list string) * gset string :=
  let '(similar_groups, processed) := st in
  let '(phash, file_paths) := entry in
  if in_set phash processed then st
  else
    let '(similar_group, processed') :=
      scan_others T phash groups (file_paths, {[phash]} ∪ processed) in
    (if (1 <? length similar_group)%nat then similar_groups ++ [similar_group]
     else similar_groups,
     processed').

Definition cluster_from (T : Z) (groups todo : dict) (st : list (list string) * gset string)
    : list (list string) * gset string :=
  fold_left (cluster_step T groups) todo st.

Definition cluster (T : Z) (groups : dict) : list (list string) * gset string :=
  cluster_from T groups groups ([], ∅).

(** ** The program *)

Definition bytes : Type := list Byte.byte.

Record report : Type := Report {
  all_images : list string;
  md5_groups : dict;
  unique_images : list string;
  duplicate_count : Z;
  phash_groups : dict;
  similar_groups : list (list string);
  processed_hashes : gset string;
  unique_count : nat;
  out_fs : gmap string bytes
}.

(** [os.path.exists] on the files below the output root. *)
Definition path_exists (p : string) (fs : gmap string bytes) : bool :=
  bool_decide (is_Some (fs !! p)).

(** [f"{base}_{n}{ext}"] for [base, ext = os.path.splitext(filename)]. *)
Definition suffixed (filename : string) (n : nat) : string :=
  let '(base, ext) := Path.splitext filename in
  base +:+ "_" +:+ str_of_nat n +:+ ext.

(** The destination chosen for [src_path] in [dir]: its base name, or the
    suffixed name when the base name is taken. *)
Definition destination (dir src_path : string) (n : nat) (fs : gmap string bytes) : string :=
  let filename := Path.basename src_path in
  let dst_path := Path.join dir filename in
  if path_exists dst_path fs then Path.join dir (suffixed filename n) else dst_path.

Section Organizer.

  (** The content of a file, or the exception raised by opening or reading it. *)
Variable read_file : string -> result bytes.
  (** [hashlib.md5] of the whole content, hex-encoded. *)
Variable md5_hexdigest : bytes -> string.
  (** [str(imagehash.phash(Image.open(path)))], or the exception raised. *)
Variable image_phash : string -> result string.

Definition readable (p : string) : Prop := exists content, read_file p = Ok content.

Definition calculate_image_hash (image_path : string) : option string :=
    match image_phash image_path with
    | Ok hash_value => Some hash_value
    | Raise _ => None
    end.

Definition calculate_file_md5 (file_path : string) : option string :=
    match read_file file_path with
    | Ok content => Some (md5_hexdigest content)
    | Raise _ => None
    end.

  (** The scan of the tree: [walk] is what [os.walk(root_dir)] yields, the
      directory paths with their file names. *)
Definition scan (walk : list (string * list string)) : list string :=
    flat_map (fun '(dirpath, filenames) =>
                List.filter is_image_file (map (Path.join dirpath) filenames)) walk.

  (** The loop over [md5_groups.items()]. *)
Definition dedup_step (st : list string * Z) (entry : string * list string)
      : result (list string * Z) :=
    let '(uniq, dups) := st in
    match snd entry with
    | [] => Raise IndexError
    | first :: _ => Ok (uniq ++ [first], (dups + (Z.of_nat (length (snd entry)) - 1))%Z)
    end.

Definition dedup (groups : dict) : result (list string * Z) :=
    for_each dedup_step groups ([], 0%Z).

  (** [shutil.copy2(src, dst)] *)
Definition copy2 (src dst : string) (fs : gmap string bytes) : result (gmap string bytes) :=
    let* content := read_file src in Ok (<[dst := content]> fs).

  (** The loop that copies the unique icons. *)
Definition unique_step (unique_dir : string) (processed : gset string)
      (st : gmap string bytes * nat) (entry : string * list string)
      : result (gmap string bytes * nat) :=
    let '(fs, count) := st in
    let '(phash, file_paths) := entry in
    if (length file_paths =? 1)%nat && negb (in_set phash processed) then
      match file_paths with
      | [] => Raise IndexError
      | src_path :: _ =>
          let dst_path := destination unique_dir src_path count fs in
          let* fs' := copy2 src_path dst_path fs in
          Ok (fs', S count)
      end
    else Ok st.

  (** The loop over the members of one group, with their index [j]. *)
Definition member_step (group_dir : string) (st : gmap string bytes * nat)
      (file_path : string) : result (gmap string bytes * nat) :=
    let '(fs, j) := st in
    let dst_path := destination group_dir file_path j fs in
    let* fs' := copy2 file_path dst_path fs in
    Ok (fs', S j).

Definition copy_group (group_dir : string) (group : list string) (fs : gmap string bytes)
      : result (gmap string bytes) :=
    let* (fs', _) := for_each (member_step group_dir) group (fs, 0%nat) in Ok fs'.

  (** The loop over the similar groups, with their index [i]. *)
Definition groups_step (similar_dir : string) (st : gmap string bytes * nat)
      (group : list string) : result (gmap string bytes * nat) :=
    let '(fs, i) := st in
    let group_dir := Path.join similar_dir ("group_" +:+ str_of_nat (i + 1)) in
    let* fs' := copy_group group_dir group fs in
    Ok (fs', S i).

Definition organize_icons (walk : list (string * list string)) (output_dir : string)
      (similarity_threshold : Z) (fs0 : gmap string bytes) : result report :=
    let imgs := scan walk in
    let md5s := group_by calculate_file_md5 imgs in
    let* (uniq, dups) := dedup md5s in
    let phashes := group_by calculate_image_hash uniq in
    let '(similar, processed) := cluster similarity_threshold phashes in
    let unique_dir := Path.join output_dir "unique_icons" in
    let similar_dir := Path.join output_dir "similar_groups" in
    let* (fs1, count) := for_each (unique_step unique_dir processed) phashes (fs0, 0%nat) in
    let* (fs2, _) := for_each (groups_step similar_dir) similar (fs1, 0%nat) in
    Ok (Report imgs md5s uniq dups phashes similar processed count fs2).

End Organizer.

(** ** Specification-side definitions *)

Definition mem (x : string) (l : list string) : bool := existsb (String.eqb x) l.

(** The paths on which [key] yields a usable value, and those values. *)
Definition keyed (key : string -> option string) (paths : list string) : list string :=
  List.filter (fun p => truthy (key p)) paths.

Definition unkeyed (key : string -> option string) (paths : list string) : list string :=
  List.filter (fun p => negb (truthy (key p))) paths.

Definition key_values (key : string -> option string) (paths : list string) : list string :=
  flat_map (fun p => match key p with
                     | Some h => if truthy (Some h) then [h] else []
                     | None => []
                     end) paths.

(** The first-discovered path of every key value, in discovery order: a
    path is kept when no earlier path produced its value ([seen] holds the
    values met so far). *)
Fixpoint first_seen (key : string -> option string) (seen : list string)
    (paths : list string) : list string :=
  match paths with
  | [] => []
  | p :: rest =>
      match key p with
      | Some h =>
          if truthy (Some h) then
            if mem h seen then first_seen key seen rest
            else p :: first_seen key (h :: seen) rest
          else first_seen key seen rest
      | None => first_seen key seen rest
      end
  end.

(** The first path of every group. *)
Definition heads (d : dict) : list string := flat_map (fun e => firstn 1 (snd e)) d.

(** All paths of a dictionary or of a list of groups. *)
Definition paths_of (d : dict) : list string := concat (map snd d).

(** The position-wise mismatch count, by index. *)
Definition mismatches (s1 s2 : string) : nat :=
  length (List.filter (fun i => match String.get i s1, String.get i s2 with
                                | Some c1, Some c2 => negb (Ascii.eqb c1 c2)
                                | _, _ => false
                                end)
                      (seq 0 (Nat.min (String.length s1) (String.length s2)))).

(** The entries that a scan seeded with [phash] merges, given the
    fingerprints processed when the scan starts. *)
Definition merges (T : Z) (phash : string) (processed : gset string)
    (entry : string * list string) : bool :=
  negb (String.eqb (fst entry) phash) && negb (in_set (fst entry) processed)
  && (Z.of_nat (hamming_distance phash (fst entry)) <=? T)%Z.

(** The clustering pass with its seeds recorded: every cluster, kept or
    not, next to the fingerprint that seeded it. *)
Definition seeded_step (T : Z) (groups : dict) (st : dict * gset string)
    (entry : string * list string) : dict * gset string :=
  let '(clusters, processed) := st in
  let '(phash, file_paths) := entry in
  if in_set phash processed then st
  else
    let '(similar_group, processed') :=
      scan_others T phash groups (file_paths, {[phash]} ∪ processed) in
    (clusters ++ [(phash, similar_group)], processed').

Definition seeded_from (T : Z) (groups todo : dict) (st : dict * gset string)
    : dict * gset string :=
  fold_left (seeded_step T groups) todo st.

Definition seeded (T : Z) (groups : dict) : dict := fst (seeded_from T groups groups ([], ∅)).

Definition retained (clusters : dict) : list (list string) :=
  map snd (List.filter (fun c => (1 <? length (snd c))%nat) clusters).

Definition dropped (clusters : dict) : dict :=
  List.filter (fun c => negb (1 <? length (snd c))%nat) clusters.

(** Every group holds at least one path. *)
Definition nonempty_groups (d : dict) : Prop := Forall (fun e => snd e <> []) d.

(** A cluster is the paths of its seed followed by the paths of the groups
    merged by the scan. *)
Definition cluster_shape (T : Z) (groups : dict) (c : string * list string) : Prop :=
  exists fp P, In (fst c, fp) groups
               /\ snd c = fp ++ paths_of (List.filter (merges T (fst c) P) groups).

(** The paths of the groups whose fingerprint is marked processed. *)
Definition covered (processed : gset string) (d : dict) : list string :=
  paths_of (List.filter (fun e => in_set (fst e) processed) d).

(** ** Concrete worlds *)

(** A file tree as a table: path, content, and the fingerprint of the
    decoded image when it decodes. *)
Definition world : Type := list (string * (option bytes * option string)).

Fixpoint world_find (w : world) (p : string) : option (option bytes * option string) :=
  match w with
  | [] => None
  | (q, x) :: w' => if String.eqb q p then Some x else world_find w' p
  end.

Definition world_read (w : world) (p : string) : result bytes :=
  match world_find w p with
  | Some (Some content, _) => Ok content
  | _ => Raise (OSError p)
  end.

Definition world_phash (w : world) (p : string) : result string :=
  match world_find w p with
  | Some (Some _, Some h) => Ok h
  | _ => Raise (OSError p)
  end.

(** A stand-in for the digest: injective and never empty. *)
Definition toy_md5 (content : bytes) : string := String "m" (string_of_list_byte content).

Definition run (w : world) (walk : list (string * list string)) (output_dir : string)
    (T : Z) (fs0 : gmap string bytes) : result report :=
  organize_icons (world_read w) toy_md5 (world_phash w) walk output_dir T fs0.

(** One readable, decodable image. *)
Definition world_single : world :=
  [("r/a.png", (Some [Byte.x01], Some "c3a5f00f3c5a0ff0"))].
Definition walk_single : list (string * list string) := [("r", ["a.png"])].

(** Two different images with fingerprints one character apart. *)
Definition world_pair : world :=
  [("r/a.png", (Some [Byte.x01], Some "c3a5f00f3c5a0ff0"));
   ("r/c.png", (Some [Byte.x02], Some "c3a5f00f3c5a0ff1"))].
Definition walk_pair : list (string * list string) := [("r", ["a.png"; "c.png"])].

(** The scenario of three files: [b.png] is a byte copy of [a.png]. *)
Definition world_three : world :=
  [("r/a.png", (Some [Byte.x01], Some "c3a5f00f3c5a0ff0"));
   ("r/b.png", (Some [Byte.x01], Some "c3a5f00f3c5a0ff0"));
   ("r/c.png", (Some [Byte.x02], Some "c3a5f00f3c5a0f11"))].
Definition walk_three : list (string * list string) := [("r", ["a.png"; "b.png"; "c.png"])].

(** Three similar images, two of them named [icon.png] and the one in
    between named [icon_2.png]. *)
Definition world_clash : world :=
  [("r/a/icon.png", (Some [Byte.x01], Some "8000000000000000"));
   ("r/b/icon_2.png", (Some [Byte.x02], Some "8000000000000001"));
   ("r/c/icon.png", (Some [Byte.x03], Some "8000000000000010"))].
Definition walk_clash : list (string * list string) :=
  [("r/a", ["icon.png"]); ("r/b", ["icon_2.png"]); ("r/c", ["icon.png"])].

(** An unreadable file and an undecodable one next to a good one. *)
Definition world_faulty : world :=
  [("r/locked.png", (None, None));
   ("r/drawing.svg", (Some [Byte.x3c], None));
   ("r/ok.png", (Some [Byte.x01], Some "c3a5f00f3c5a0ff0"))].
Definition walk_faulty : list (string * list string) :=
  [("r", ["locked.png"; "drawing.svg"; "ok.png"])].

(** Three fingerprint groups on which the second seed loses a member when
    the threshold is raised from 1 to 2. *)
Definition groups_greedy : dict :=
  [("0000000000000000", ["e.png"]);
   ("1110000000000000", ["f.png"]);
   ("1100000000000000", ["g.png"])].

(** ** Further specification-side definitions *)

(** [c in s] *)
Fixpoint has_char (c : ascii) (s : string) : bool :=
  match s with
  | EmptyString => false
  | String x r => Ascii.eqb x c || has_char c r
  end.

(** The paths on which [key] yields the value [h], in discovery order. *)
Definition with_key (key : string -> option string) (h : string) (paths : list string)
    : list string :=
  List.filter (fun p => match key p with
                        | Some h' => String.eqb h' h
                        | None => false
                        end) paths.

(** [d.get(h, [])] *)
Fixpoint dict_get (h : string) (d : dict) : list string :=
  match d with
  | [] => []
  | (k, vs) :: d' => if String.eqb k h then vs else dict_get h d'
  end.

(** The prefix that [os.path.join] puts before a relative component. *)
Definition join_prefix (a : string) : string :=
  match a with
  | EmptyString => EmptyString
  | _ => if Path.ends_with_slash a then a else a +:+ "/"
  end.

(** A tree that holds a single vector drawing, which the decoder rejects. *)
Definition world_svg : world := [("r/drawing.svg", (Some [Byte.x3c], None))].
Definition walk_svg : list (string * list string) := [("r", ["drawing.svg"])].

(** A key that reads the fingerprint off a table. *)
Definition table_key (w : world) (p : string) : option string :=
  calculate_image_hash (world_phash w) p.

(** * Properties *)

(** ** Loops *)

Lemma for_each_app {A S : Type} (body : S -> A -> result S) (l1 l2 : list A) (s : S) :
  for_each body (l1 ++ l2) s = bind (for_each body l1 s) (for_each body l2).
Proof.
  revert s. induction l1 as [|x l1 IH]; intros s; simpl; [reflexivity|].
  destruct (body s x); simpl; auto.
Qed.

(** ** Dictionaries *)

Lemma mem_In (x : string) (l : list string) : mem x l = true <-> In x l.
Proof.
  unfold mem. rewrite existsb_exists. split.
  - intros [y [Hy He]]. apply String.eqb_eq in He. now subst.
  - intros H. exists x. split; [assumption | apply String.eqb_refl].
Qed.

Lemma mem_false (x : string) (l : list string) : mem x l = false <-> ~ In x l.
Proof.
  rewrite <- mem_In. destruct (mem x l); intuition congruence.
Qed.

Lemma mem_app (x : string) (l1 l2 : list string) : mem x (l1 ++ l2) = mem x l1 || mem x l2.
Proof. unfold mem. apply existsb_app. Qed.

Lemma mem_ext (x : string) (l1 l2 : list string) :
  (forall y, In y l1 <-> In y l2) -> mem x l1 = mem x l2.
Proof.
  intros H. destruct (mem x l2) eqn:E.
  - apply mem_In. apply H. now apply mem_In.
  - apply mem_false. intros Hx. apply mem_false in E. apply E. now apply H.
Qed.

Lemma keys_dict_append (k v : string) (d : dict) :
  keys (dict_append k v d) = if mem k (keys d) then keys d else keys d ++ [k].
Proof.
  induction d as [|[k' vs] d IH]; simpl; [reflexivity|].
  rewrite (String.eqb_sym k k').
  destruct (String.eqb k' k) eqn:E; simpl; [reflexivity|].
  rewrite IH. fold (mem k (keys d)). now destruct (mem k (keys d)).
Qed.

Lemma nonempty_dict_append (k v : string) (d : dict) :
  nonempty_groups d -> nonempty_groups (dict_append k v d).
Proof.
  unfold nonempty_groups.
  induction d as [|[k' vs] d IH]; simpl; intros H.
  - constructor; [discriminate | constructor].
  - inversion H; subst. destruct (String.eqb k' k).
    + constructor; [|assumption]. simpl. now destruct vs.
    + constructor; auto.
Qed.

Lemma heads_dict_append (k v : string) (d : dict) :
  nonempty_groups d ->
  heads (dict_append k v d) = if mem k (keys d) then heads d else heads d ++ [v].
Proof.
  unfold nonempty_groups, heads.
  induction d as [|[k' vs] d IH]; simpl; intros H; [reflexivity|].
  inversion H as [|? ? Hne Hd]; subst. simpl in Hne.
  rewrite (String.eqb_sym k k').
  destruct (String.eqb k' k) eqn:E; simpl.
  - destruct vs; [congruence | reflexivity].
  - rewrite (IH Hd). fold (mem k (keys d)). destruct (mem k (keys d)); [reflexivity|].
    now rewrite app_assoc.
Qed.

Lemma paths_of_dict_append_length (k v : string) (d : dict) :
  length (paths_of (dict_append k v d)) = S (length (paths_of d)).
Proof.
  unfold paths_of.
  induction d as [|[k' vs] d IH]; simpl; [reflexivity|].
  destruct (String.eqb k' k); simpl; rewrite !length_app.
  - simpl. lia.
  - rewrite IH. lia.
Qed.

Lemma In_dict_append (k v h p : string) (ps : list string) (d : dict) :
  In (h, ps) (dict_append k v d) -> In p ps ->
  (exists ps0, In (h, ps0) d /\ In p ps0) \/ (h = k /\ p = v).
Proof.
  induction d as [|[k' vs] d IH]; simpl; intros Hin Hp.
  - destruct Hin as [Hin|[]]. inversion Hin; subst. destruct Hp as [Hp|[]]. now right.
  - destruct (String.eqb k' k) eqn:E.
    + destruct Hin as [Hin|Hin].
      * inversion Hin; subst. apply in_app_or in Hp. destruct Hp as [Hp|[Hp|[]]].
        -- left. exists vs. auto.
        -- right. apply String.eqb_eq in E. auto.
      * left. exists ps. auto.
    + destruct Hin as [Hin|Hin].
      * inversion Hin; subst. left. exists ps. auto.
      * destruct (IH Hin Hp) as [[ps0 [H1 H2]]|H]; [left; exists ps0; auto | now right].
Qed.

Section Grouping.

Variable key : string -> option string.

Lemma group_add_falsy (d : dict) (p : string) :
    truthy (key p) = false -> group_add key d p = d.
Proof.
    unfold group_add. destruct (key p) as [h|]; [|reflexivity]. now intros ->.
Qed.

Lemma group_add_truthy (d : dict) (p : string) :
    truthy (key p) = true -> exists h, key p = Some h /\ group_add key d p = dict_append h p d.
Proof.
    unfold group_add. destruct (key p) as [h|]; [|discriminate].
    intros ->. now exists h.
Qed.

Lemma first_seen_ext (paths : list string) (s1 s2 : list string) :
    (forall y, In y s1 <-> In y s2) ->
    first_seen key s1 paths = first_seen key s2 paths.
Proof.
    revert s1 s2. induction paths as [|q qs IHq]; intros s1 s2 Hs; simpl; [reflexivity|].
    destruct (key q) as [hq|]; [|now apply IHq].
    destruct (truthy (Some hq)); [|now apply IHq].
    rewrite (mem_ext hq s1 s2 Hs). destruct (mem hq s2); [now apply IHq|].
    f_equal. apply IHq. intros y. simpl. rewrite Hs. tauto.
Qed.

Lemma first_seen_snoc (paths seen : list string) (h : string) :
    first_seen key (seen ++ [h]) paths = first_seen key (h :: seen) paths.
Proof.
    apply first_seen_ext. intros y. rewrite in_app_iff. simpl. tauto.
Qed.

Lemma group_fold_keys (paths : list string) (d : dict) :
    keys (fold_left (group_add key) paths d)
    = keys d ++ key_values key (first_seen key (keys d) paths).
Proof.
    revert d. induction paths as [|p paths IH]; intros d; simpl.
    - now rewrite app_nil_r.
    - rewrite IH. unfold group_add. destruct (key p) as [h|] eqn:Hk; [|reflexivity].
      destruct (truthy (Some h)) eqn:Ht; [|reflexivity].
      rewrite keys_dict_append. destruct (mem h (keys d)) eqn:Hm; [reflexivity|].
      simpl. rewrite Hk, Ht. simpl. rewrite <- app_assoc. simpl.
      now rewrite first_seen_snoc.
Qed.

Lemma group_fold_nonempty (paths : list string) (d : dict) :
    nonempty_groups d -> nonempty_groups (fold_left (group_add key) paths d).
Proof.
    revert d. induction paths as [|p paths IH]; intros d Hd; simpl; [assumption|].
    apply IH. unfold group_add. destruct (key p) as [h|]; [|assumption].
    destruct (truthy (Some h)); [|assumption]. now apply nonempty_dict_append.
Qed.

Lemma group_fold_heads (paths : list string) (d : dict) :
    nonempty_groups d ->
    heads (fold_left (group_add key) paths d) = heads d ++ first_seen key (keys d) paths.
Proof.
    revert d. induction paths as [|p paths IH]; intros d Hd; simpl.
    - now rewrite app_nil_r.
    - unfold group_add. destruct (key p) as [h|] eqn:Hk; [|now apply IH].
      destruct (truthy (Some h)) eqn:Ht; [|now apply IH].
      rewrite IH by now apply nonempty_dict_append.
      rewrite keys_dict_append, heads_dict_append by assumption.
      destruct (mem h (keys d)); [reflexivity|].
      rewrite <- app_assoc. simpl. now rewrite first_seen_snoc.
Qed.

Lemma group_fold_size (paths : list string) (d : dict) :
    length (paths_of (fold_left (group_add key) paths d))
    = (length (paths_of d) + length (keyed key paths))%nat.
Proof.
    revert d. induction paths as [|p paths IH]; intros d; simpl; [lia|].
    rewrite IH. unfold group_add. destruct (key p) as [h|] eqn:Hk.
    - destruct (truthy (Some h)) eqn:Ht; simpl.
      + rewrite paths_of_dict_append_length. lia.
      + lia.
    - replace (truthy None) with false by reflexivity. lia.
Qed.

Lemma group_fold_In (paths : list string) (d : dict) (h p : string) (ps : list string) :
    In (h, ps) (fold_left (group_add key) paths d) -> In p ps ->
    (exists ps0, In (h, ps0) d /\ In p ps0)
    \/ (In p paths /\ key p = Some h /\ truthy (key p) = true).
Proof.
    revert d. induction paths as [|q paths IH]; intros d Hin Hp; simpl in *.
    - left. now exists ps.
    - destruct (IH _ Hin Hp) as [[ps0 [H1 H2]]|[H1 H2]]; [|right; tauto].
      unfold group_add in H1. destruct (key q) as [hq|] eqn:Hk; [|left; now exists ps0].
      destruct (truthy (Some hq)) eqn:Ht; [|left; now exists ps0].
      destruct (In_dict_append _ _ _ _ _ _ H1 H2) as [H|[-> ->]]; [now left|].
      right. rewrite Hk. auto.
Qed.

Lemma group_by_In (paths : list string) (h p : string) (ps : list string) :
    In (h, ps) (group_by key paths) -> In p ps ->
    In p paths /\ key p = Some h /\ truthy (key p) = true.
Proof.
    intros Hin Hp. destruct (group_fold_In _ _ _ _ _ Hin Hp) as [[ps0 [[] _]]|H]; assumption.
Qed.

Lemma group_by_nonempty (paths : list string) : nonempty_groups (group_by key paths).
Proof. apply group_fold_nonempty. constructor. Qed.

Lemma first_seen_fresh (paths seen : list string) :
    List.NoDup seen ->
    List.NoDup (seen ++ key_values key (first_seen key seen paths)).
Proof.
    revert seen. induction paths as [|p paths IH]; intros seen Hs; simpl.
    - now rewrite app_nil_r.
    - destruct (key p) as [h|] eqn:Hk; [|now apply IH].
      destruct (truthy (Some h)) eqn:Ht; [|now apply IH].
      destruct (mem h seen) eqn:Hm; [now apply IH|].
      simpl. rewrite Hk, Ht. simpl.
      apply mem_false in Hm.
      assert (Hnd : List.NoDup (h :: seen)) by (constructor; assumption).
      specialize (IH _ Hnd). simpl in IH.
      apply (Permutation.Permutation_NoDup (l := h :: seen ++ key_values key (first_seen key (h :: seen) paths)));
        [|assumption].
      apply Permutation_middle.
Qed.

Lemma group_by_NoDup (paths : list string) : List.NoDup (keys (group_by key paths)).
Proof.
    unfold group_by. rewrite group_fold_keys. simpl.
    apply (first_seen_fresh paths []). constructor.
Qed.

Lemma group_by_skip (l1 l2 : list string) (p : string) :
    truthy (key p) = false ->
    group_by key (l1 ++ p :: l2) = group_by key (l1 ++ l2).
Proof.
    intros H. unfold group_by. rewrite !fold_left_app. simpl.
    now rewrite group_add_falsy.
Qed.

End Grouping.

(** ** The exact-duplicate stage *)

Lemma dedup_step_fold (d : dict) (uniq : list string) (dups : Z) :
  nonempty_groups d ->
  for_each dedup_step d (uniq, dups)
  = Ok (uniq ++ heads d,
        (dups + (Z.of_nat (length (paths_of d)) - Z.of_nat (length d)))%Z).
Proof.
  unfold nonempty_groups, heads, paths_of.
  revert uniq dups. induction d as [|[k vs] d IH]; intros uniq dups H; simpl.
  - rewrite app_nil_r. f_equal. f_equal. lia.
  - inversion H as [|? ? Hne Hd]; subst. simpl in Hne.
    destruct vs as [|v vs]; [congruence|]. simpl.
    rewrite (IH _ _ Hd). rewrite <- app_assoc. simpl. f_equal. f_equal.
    rewrite length_app. lia.
Qed.

Lemma dedup_ok (d : dict) :
  nonempty_groups d ->
  dedup d = Ok (heads d, (Z.of_nat (length (paths_of d)) - Z.of_nat (length d))%Z).
Proof.
  intros H. unfold dedup. rewrite (dedup_step_fold d [] 0%Z H). reflexivity.
Qed.

Section Representatives.

Variable key : string -> option string.

Lemma key_values_first_seen_In (paths seen : list string) (h : string) :
    In h (key_values key (first_seen key seen paths))
    <-> In h (key_values key paths) /\ ~ In h seen.
Proof.
    revert seen. induction paths as [|p paths IH]; intros seen; simpl; [tauto|].
    destruct (key p) as [hp|] eqn:Hk; [|simpl; apply IH].
    destruct (truthy (Some hp)) eqn:Ht; [|simpl; apply IH].
    destruct (mem hp seen) eqn:Hm.
    - apply mem_In in Hm. rewrite IH. simpl. intuition (subst; tauto).
    - apply mem_false in Hm. simpl. rewrite Hk, Ht. simpl. rewrite IH. simpl.
      destruct (String.string_dec hp h) as [->|Hne]; intuition congruence.
Qed.

Lemma distinct_values_count (paths : list string) :
    length (group_by key paths) = length (nodup String.string_dec (key_values key paths)).
Proof.
    rewrite <- (length_map fst (group_by key paths)). fold (keys (group_by key paths)).
    apply Permutation_length. apply Permutation.NoDup_Permutation.
    - apply group_by_NoDup.
    - apply List.NoDup_nodup.
    - intros h. rewrite nodup_In. unfold group_by. rewrite group_fold_keys. simpl.
      rewrite key_values_first_seen_In. simpl. tauto.
Qed.

Lemma group_by_size (paths : list string) :
    length (paths_of (group_by key paths)) = length (keyed key paths).
Proof. unfold group_by. now rewrite group_fold_size. Qed.

Lemma group_by_heads (paths : list string) :
    heads (group_by key paths) = first_seen key [] paths.
Proof. unfold group_by. rewrite group_fold_heads by constructor. reflexivity. Qed.

Lemma first_seen_incl (paths seen : list string) (p : string) :
    In p (first_seen key seen paths) -> In p paths /\ truthy (key p) = true.
Proof.
    revert seen. induction paths as [|q paths IH]; intros seen; simpl; [tauto|].
    destruct (key q) as [hq|] eqn:Hk; [|intros H; apply IH in H; tauto].
    destruct (truthy (Some hq)) eqn:Ht; [|intros H; apply IH in H; tauto].
    destruct (mem hq seen).
    - intros H; apply IH in H; tauto.
    - intros [<-|H]; [rewrite Hk; auto | apply IH in H; tauto].
Qed.

Lemma dedup_group_by (paths : list string) :
    dedup (group_by key paths)
    = Ok (first_seen key [] paths,
          (Z.of_nat (length (keyed key paths))
           - Z.of_nat (length (nodup String.string_dec (key_values key paths))))%Z).
Proof.
    rewrite dedup_ok by apply group_by_nonempty.
    now rewrite group_by_heads, group_by_size, distinct_values_count.
Qed.

End Representatives.

Section ExactDuplicates.

Variable read_file : string -> result bytes.
Variable md5_hexdigest : bytes -> string.

Local Abbreviation file_md5 := (calculate_file_md5 read_file md5_hexdigest).

  (** C7: the loop over the digest groups returns, in discovery order, the
      first-discovered path of every digest, and counts as duplicates the
      paths that produced a digest minus the distinct digests; each
      representative heads its digest group and the digests of the
      representatives are the distinct group keys. *)
Theorem exact_duplicate_stage (imgs : list string) :
    dedup (group_by file_md5 imgs)
    = Ok (first_seen file_md5 [] imgs,
          (Z.of_nat (length (keyed file_md5 imgs))
           - Z.of_nat (length (nodup String.string_dec (key_values file_md5 imgs))))%Z)
    /\ Forall2 (fun group rep => file_md5 rep = Some (fst group)
                                 /\ exists rest, snd group = rep :: rest)
               (group_by file_md5 imgs) (first_seen file_md5 [] imgs)
    /\ List.NoDup (keys (group_by file_md5 imgs)).
Proof.
    split; [|split].
    - apply dedup_group_by.
    - rewrite <- group_by_heads.
      pose proof (group_by_nonempty file_md5 imgs) as Hne.
      assert (Hin : forall h ps p, In (h, ps) (group_by file_md5 imgs) -> In p ps ->
                                   file_md5 p = Some h)
        by (intros h ps p H1 H2; now apply (group_by_In _ _ _ _ _ H1 H2)).
      revert Hne Hin. generalize (group_by file_md5 imgs). intros d.
      unfold nonempty_groups, heads.
      induction d as [|[k vs] d IH]; intros Hne Hin; simpl; [constructor|].
      inversion Hne as [|? ? Hv Hd]; subst. simpl in Hv.
      destruct vs as [|v vs]; [congruence|]. simpl. constructor.
      + simpl. split; [|now exists vs]. apply (Hin k (v :: vs)); simpl; auto.
      + apply IH; [assumption|]. intros h ps p H1 H2. apply (Hin h ps); simpl; auto.
    - apply group_by_NoDup.
Qed.

End ExactDuplicates.

(** ** The distance *)

Lemma hamming_distance_cons (c1 c2 : ascii) (r1 r2 : string) :
  hamming_distance (String c1 r1) (String c2 r2)
  = (Nat.b2n (negb (Ascii.eqb c1 c2)) + hamming_distance r1 r2)%nat.
Proof. reflexivity. Qed.

Lemma hamming_distance_nil_l (s : string) : hamming_distance EmptyString s = 0%nat.
Proof. reflexivity. Qed.

Lemma hamming_distance_nil_r (s : string) : hamming_distance s EmptyString = 0%nat.
Proof. destruct s; reflexivity. Qed.

Lemma hamming_distance_sym (s1 s2 : string) :
  hamming_distance s1 s2 = hamming_distance s2 s1.
Proof.
  revert s2. induction s1 as [|c1 r1 IH]; intros s2.
  - now rewrite hamming_distance_nil_l, hamming_distance_nil_r.
  - destruct s2 as [|c2 r2]; [reflexivity|].
    rewrite !hamming_distance_cons, IH, (Ascii.eqb_sym c1 c2). reflexivity.
Qed.

Lemma hamming_distance_refl (s : string) : hamming_distance s s = 0%nat.
Proof.
  induction s as [|c r IH]; [reflexivity|].
  rewrite hamming_distance_cons, IH, Ascii.eqb_refl. reflexivity.
Qed.

Lemma filter_shift_length (f : nat -> bool) (start len : nat) :
  length (List.filter f (seq (S start) len))
  = length (List.filter (fun i => f (S i)) (seq start len)).
Proof.
  rewrite <- seq_shift. generalize (seq start len). intros l.
  induction l as [|x l IH]; simpl; [reflexivity|].
  destruct (f (S x)); simpl; now rewrite IH.
Qed.

Lemma hamming_distance_mismatches (s1 s2 : string) :
  hamming_distance s1 s2 = mismatches s1 s2.
Proof.
  unfold mismatches. revert s2. induction s1 as [|c1 r1 IH]; intros s2.
  - reflexivity.
  - destruct s2 as [|c2 r2]; [reflexivity|].
    rewrite hamming_distance_cons, IH.
    cbn [String.length Nat.min seq List.filter String.get].
    destruct (Ascii.eqb c1 c2); cbn [negb Nat.b2n length]; rewrite filter_shift_length;
      reflexivity.
Qed.

(** ** The merge scan *)

Lemma in_set_true (x : string) (s : gset string) : in_set x s = true <-> x ∈ s.
Proof. unfold in_set. apply bool_decide_eq_true. Qed.

Lemma in_set_false (x : string) (s : gset string) : in_set x s = false <-> x ∉ s.
Proof. unfold in_set. apply bool_decide_eq_false. Qed.

Lemma scan_step_merges (T : Z) (F : string) (g : list string) (P : gset string)
    (e : string * list string) :
  scan_step T F (g, P) e
  = if merges T F P e then (g ++ snd e, {[fst e]} ∪ P) else (g, P).
Proof.
  unfold scan_step, merges. destruct e as [G ps]. simpl.
  destruct (negb (String.eqb G F) && negb (in_set G P)); simpl; [|reflexivity].
  destruct (Z.of_nat (hamming_distance F G) <=? T)%Z; reflexivity.
Qed.

Lemma merges_within (T : Z) (F : string) (P : gset string) (e : string * list string) :
  merges T F P e = true <->
  fst e <> F /\ (fst e ∉ P) /\ (Z.of_nat (hamming_distance F (fst e)) <= T)%Z.
Proof.
  unfold merges. rewrite !andb_true_iff, !negb_true_iff, String.eqb_neq, in_set_false.
  rewrite Z.leb_le. tauto.
Qed.

Lemma merges_fresh (T : Z) (F G : string) (P : gset string) (l : dict) :
  ~ In G (keys l) ->
  List.filter (merges T F ({[G]} ∪ P)) l = List.filter (merges T F P) l.
Proof.
  intros HG. apply filter_ext_in. intros e He. unfold merges.
  assert (Hne : fst e <> G) by (intros <-; apply HG; now apply in_map).
  assert (Hs : in_set (fst e) ({[G]} ∪ P) = in_set (fst e) P).
  { destruct (in_set (fst e) P) eqn:E.
    - apply in_set_true. apply in_set_true in E. set_solver.
    - apply in_set_false. apply in_set_false in E. set_solver. }
  now rewrite Hs.
Qed.

Lemma paths_of_cons (e : string * list string) (d : dict) :
  paths_of (e :: d) = snd e ++ paths_of d.
Proof. reflexivity. Qed.

Lemma paths_of_app (d1 d2 : dict) : paths_of (d1 ++ d2) = paths_of d1 ++ paths_of d2.
Proof. unfold paths_of. now rewrite map_app, concat_app. Qed.

Lemma scan_others_spec (T : Z) (F : string) (l : dict) (g : list string) (P : gset string) :
  List.NoDup (keys l) ->
  scan_others T F l (g, P)
  = (g ++ paths_of (List.filter (merges T F P) l),
     list_to_set (keys (List.filter (merges T F P) l)) ∪ P).
Proof.
  unfold scan_others. revert g P. induction l as [|e l IH]; intros g P Hnd.
  - simpl. rewrite app_nil_r. f_equal. set_solver.
  - inversion Hnd as [|? ? Hfresh Hnd']; subst.
    cbn [fold_left List.filter]. rewrite scan_step_merges.
    destruct (merges T F P e) eqn:Hm.
    + rewrite (IH _ _ Hnd'), (merges_fresh T F (fst e) P l Hfresh).
      rewrite paths_of_cons, app_assoc. f_equal.
      cbn [keys map list_to_set]. fold (keys (List.filter (merges T F P) l)). set_solver.
    + apply (IH _ _ Hnd').
Qed.

Lemma scan_others_processed (T : Z) (F : string) (l : dict) (g : list string)
    (P : gset string) :
  P ⊆ snd (scan_others T F l (g, P)).
Proof.
  unfold scan_others. revert g P. induction l as [|e l IH]; intros g P; cbn [fold_left]; [done|].
  rewrite scan_step_merges. destruct (merges T F P e).
  - etransitivity; [|apply IH]. set_solver.
  - apply IH.
Qed.

(** C4: the distance is the number of positions, within the shorter of the
    two strings, at which the characters differ; a scan seeded with [F]
    appends, in enumeration order, the paths of exactly the groups [G]
    that differ from [F], are not yet processed and lie within [T], and
    marks exactly those; the cluster is kept if and only if it has more
    than one path. *)
Theorem clustering_pass_rule (T : Z) (groups : dict) (F : string) (file_paths : list string)
    (similar_groups : list (list string)) (processed : gset string) :
  List.NoDup (keys groups) ->
  F ∉ processed ->
  let merged := List.filter (merges T F ({[F]} ∪ processed)) groups in
  let cluster := file_paths ++ paths_of merged in
  (forall s1 s2, hamming_distance s1 s2 = mismatches s1 s2)
  /\ (forall G ps, In (G, ps) merged <->
        In (G, ps) groups /\ G <> F /\ (G ∉ processed)
        /\ (Z.of_nat (hamming_distance F G) <= T)%Z)
  /\ scan_others T F groups (file_paths, {[F]} ∪ processed)
     = (cluster, list_to_set (keys merged) ∪ ({[F]} ∪ processed))
  /\ cluster_step T groups (similar_groups, processed) (F, file_paths)
     = (if (1 <? length cluster)%nat then similar_groups ++ [cluster] else similar_groups,
        list_to_set (keys merged) ∪ ({[F]} ∪ processed)).
Proof.
  intros Hnd HF merged cluster.
  assert (Hscan : scan_others T F groups (file_paths, {[F]} ∪ processed)
                  = (cluster, list_to_set (keys merged) ∪ ({[F]} ∪ processed)))
    by apply (scan_others_spec T F groups file_paths _ Hnd).
  split; [|split; [|split]].
  - apply hamming_distance_mismatches.
  - intros G ps. unfold merged. rewrite filter_In, merges_within. simpl.
    split.
    + intros [Hin [Hne [Hp Hd]]]. repeat split; try assumption. set_solver.
    + intros [Hin [Hne [Hp Hd]]]. repeat split; try assumption. set_solver.
  - exact Hscan.
  - unfold cluster_step. apply in_set_false in HF. rewrite HF, Hscan. reflexivity.
Qed.

(** ** The clustering pass *)

Lemma cluster_step_processed (T : Z) (groups : dict) (sgs : list (list string))
    (P : gset string) (e : string * list string) :
  P ⊆ snd (cluster_step T groups (sgs, P) e)
  /\ fst e ∈ snd (cluster_step T groups (sgs, P) e).
Proof.
  unfold cluster_step. destruct e as [F fp]. simpl.
  destruct (in_set F P) eqn:E.
  - apply in_set_true in E. simpl. split; [done | assumption].
  - pose proof (scan_others_processed T F groups fp ({[F]} ∪ P)) as Hs.
    destruct (scan_others T F groups (fp, {[F]} ∪ P)) as [g P']. simpl in *.
    split; set_solver.
Qed.

Lemma cluster_from_processed (T : Z) (groups todo : dict) (sgs : list (list string))
    (P : gset string) :
  P ⊆ snd (cluster_from T groups todo (sgs, P))
  /\ forall k, In k (keys todo) -> k ∈ snd (cluster_from T groups todo (sgs, P)).
Proof.
  unfold cluster_from. revert sgs P. induction todo as [|e todo IH]; intros sgs P.
  - simpl. split; [done | tauto].
  - cbn [fold_left keys map].
    destruct (cluster_step_processed T groups sgs P e) as [H1 H2].
    destruct (cluster_step T groups (sgs, P) e) as [sgs' P']. simpl in H1, H2.
    destruct (IH sgs' P') as [H3 H4]. split.
    + set_solver.
    + intros k [<-|Hk]; [set_solver | now apply H4].
Qed.

Lemma retained_snoc (cs : dict) (F : string) (g : list string) :
  retained (cs ++ [(F, g)])
  = if (1 <? length g)%nat then retained cs ++ [g] else retained cs.
Proof.
  unfold retained. rewrite List.filter_app, map_app. simpl.
  destruct (1 <? length g)%nat; simpl; [reflexivity | now rewrite app_nil_r].
Qed.

Lemma seeded_step_erase (T : Z) (groups : dict) (cs : dict) (P : gset string)
    (e : string * list string) :
  cluster_step T groups (retained cs, P) e
  = (retained (fst (seeded_step T groups (cs, P) e)),
     snd (seeded_step T groups (cs, P) e)).
Proof.
  unfold cluster_step, seeded_step. destruct e as [F fp].
  destruct (in_set F P); [reflexivity|].
  destruct (scan_others T F groups (fp, {[F]} ∪ P)) as [g P']. simpl.
  now rewrite (retained_snoc cs F g).
Qed.

Lemma seeded_from_erase (T : Z) (groups todo : dict) (cs : dict) (P : gset string) :
  cluster_from T groups todo (retained cs, P)
  = (retained (fst (seeded_from T groups todo (cs, P))),
     snd (seeded_from T groups todo (cs, P))).
Proof.
  unfold cluster_from, seeded_from. revert cs P.
  induction todo as [|e todo IH]; intros cs P; [reflexivity|].
  cbn [fold_left]. rewrite seeded_step_erase.
  destruct (seeded_step T groups (cs, P) e) as [cs' P']. apply IH.
Qed.

Lemma cluster_seeded (T : Z) (groups : dict) :
  cluster T groups = (retained (seeded T groups), snd (seeded_from T groups groups ([], ∅))).
Proof. unfold cluster, seeded. apply (seeded_from_erase T groups groups [] ∅). Qed.

Lemma seeded_step_spec (T : Z) (groups : dict) (cs : dict) (P : gset string)
    (F : string) (fp : list string) :
  List.NoDup (keys groups) ->
  seeded_step T groups (cs, P) (F, fp)
  = if in_set F P then (cs, P)
    else (cs ++ [(F, fp ++ paths_of (List.filter (merges T F ({[F]} ∪ P)) groups))],
          list_to_set (keys (List.filter (merges T F ({[F]} ∪ P)) groups)) ∪ ({[F]} ∪ P)).
Proof.
  intros Hnd. unfold seeded_step. destruct (in_set F P); [reflexivity|].
  now rewrite (scan_others_spec T F groups fp _ Hnd).
Qed.

Lemma seeded_from_shape (T : Z) (groups todo : dict) (cs : dict) (P : gset string) :
  List.NoDup (keys groups) -> incl todo groups ->
  Forall (cluster_shape T groups) cs ->
  Forall (cluster_shape T groups) (fst (seeded_from T groups todo (cs, P))).
Proof.
  intros Hnd. unfold seeded_from. revert cs P.
  induction todo as [|[F fp] todo IH]; intros cs P Hincl Hcs; [assumption|].
  cbn [fold_left]. rewrite (seeded_step_spec T groups cs P F fp Hnd).
  assert (Hincl' : incl todo groups) by (intros x Hx; apply Hincl; now right).
  destruct (in_set F P); [now apply IH|].
  apply IH; [assumption|]. apply List.Forall_app. split; [assumption|].
  constructor; [|constructor]. exists fp, ({[F]} ∪ P). simpl. split; [|reflexivity].
  apply Hincl. now left.
Qed.

Lemma seeded_shape (T : Z) (groups : dict) :
  List.NoDup (keys groups) -> Forall (cluster_shape T groups) (seeded T groups).
Proof.
  intros Hnd. unfold seeded. apply seeded_from_shape; [assumption | apply incl_refl | constructor].
Qed.

(** ** The clusters partition the fingerprint groups *)

Lemma split_filter_length (f g h : string * list string -> bool) (l : dict) :
  (forall e, In e l -> h e = f e || g e) ->
  (forall e, In e l -> f e && g e = false) ->
  length (paths_of (List.filter h l))
  = (length (paths_of (List.filter f l)) + length (paths_of (List.filter g l)))%nat.
Proof.
  induction l as [|e l IH]; intros H1 H2; [reflexivity|].
  cbn [List.filter].
  assert (IH' := IH (fun x Hx => H1 x (or_intror Hx)) (fun x Hx => H2 x (or_intror Hx))).
  specialize (H1 e (or_introl eq_refl)). specialize (H2 e (or_introl eq_refl)).
  rewrite H1. destruct (f e), (g e); simpl in *; try discriminate;
    rewrite ?paths_of_cons, ?length_app, IH'; lia.
Qed.

Lemma filter_none {A : Type} (f : A -> bool) (l : list A) :
  (forall x, In x l -> f x = false) -> List.filter f l = [].
Proof.
  induction l as [|x l IH]; intros H; [reflexivity|]. simpl.
  rewrite (H x (or_introl eq_refl)). apply IH. intros y Hy. apply H. now right.
Qed.

Lemma filter_key_unique (F : string) (fp : list string) (l : dict) :
  List.NoDup (keys l) -> In (F, fp) l ->
  paths_of (List.filter (fun e => String.eqb (fst e) F) l) = fp.
Proof.
  induction l as [|[k vs] l IH]; intros Hnd Hin; [destruct Hin|].
  inversion Hnd as [|? ? Hfresh Hnd']; subst. cbn [List.filter fst].
  destruct Hin as [Hin|Hin].
  - inversion Hin; subst. rewrite String.eqb_refl, paths_of_cons. simpl.
    replace (List.filter (fun e => String.eqb (fst e) F) l) with (@nil (string * list string)).
    + apply app_nil_r.
    + symmetry. apply filter_none. intros e He.
      apply String.eqb_neq. intros <-. apply Hfresh. now apply in_map.
  - destruct (String.eqb k F) eqn:E.
    + apply String.eqb_eq in E. subst. exfalso. apply Hfresh.
      change F with (fst (F, fp)). now apply in_map.
    + now apply IH.
Qed.

Lemma covered_seed (F : string) (fp : list string) (P : gset string) (groups : dict) :
  List.NoDup (keys groups) -> In (F, fp) groups -> F ∉ P ->
  length (covered ({[F]} ∪ P) groups) = (length (covered P groups) + length fp)%nat.
Proof.
  intros Hnd Hin HF. unfold covered.
  rewrite (split_filter_length (fun e => in_set (fst e) P) (fun e => String.eqb (fst e) F)).
  - now rewrite (filter_key_unique F fp groups Hnd Hin).
  - intros e _. destruct (String.eqb (fst e) F) eqn:E.
    + apply String.eqb_eq in E. rewrite orb_true_r. apply in_set_true. set_solver.
    + apply String.eqb_neq in E. rewrite orb_false_r.
      destruct (in_set (fst e) P) eqn:E'.
      * apply in_set_true. apply in_set_true in E'. set_solver.
      * apply in_set_false. apply in_set_false in E'. set_solver.
  - intros e _. destruct (String.eqb (fst e) F) eqn:E; [|apply andb_false_r].
    apply String.eqb_eq in E. rewrite E, andb_true_r. now apply in_set_false.
Qed.

Lemma merged_keys (T : Z) (F : string) (P : gset string) (groups : dict)
    (e : string * list string) :
  In e groups ->
  (fst e ∈ (list_to_set (keys (List.filter (merges T F P) groups)) : gset string)
   <-> merges T F P e = true).
Proof.
  intros He. rewrite elem_of_list_to_set, list_elem_of_In. unfold keys.
  rewrite in_map_iff. split.
  - intros [e' [Hk He']]. apply filter_In in He'. destruct He' as [_ Hm].
    unfold merges in *. now rewrite <- Hk.
  - intros Hm. exists e. split; [reflexivity|]. apply filter_In. auto.
Qed.

Lemma covered_merged (T : Z) (F : string) (P : gset string) (groups : dict) :
  length (covered (list_to_set (keys (List.filter (merges T F P) groups)) ∪ P) groups)
  = (length (covered P groups)
     + length (paths_of (List.filter (merges T F P) groups)))%nat.
Proof.
  unfold covered. apply split_filter_length.
  - intros e He. pose proof (merged_keys T F P groups e He) as Hk.
    destruct (merges T F P e) eqn:Hm.
    + rewrite orb_true_r. apply in_set_true. apply elem_of_union_l. now apply Hk.
    + rewrite orb_false_r. destruct (in_set (fst e) P) eqn:E'.
      * apply in_set_true. apply in_set_true in E'. set_solver.
      * apply in_set_false. apply in_set_false in E'.
        intros Hin. apply elem_of_union in Hin. destruct Hin as [Hin|Hin]; [|contradiction].
        apply Hk in Hin. discriminate.
  - intros e _. destruct (merges T F P e) eqn:Hm; [|apply andb_false_r].
    apply merges_within in Hm. destruct Hm as [_ [Hp _]].
    apply in_set_false in Hp. now rewrite Hp.
Qed.

Lemma seeded_from_covered (T : Z) (groups todo : dict) (cs : dict) (P : gset string) :
  List.NoDup (keys groups) -> incl todo groups ->
  length (paths_of cs) = length (covered P groups) ->
  length (paths_of (fst (seeded_from T groups todo (cs, P))))
  = length (covered (snd (seeded_from T groups todo (cs, P))) groups).
Proof.
  intros Hnd. unfold seeded_from. revert cs P.
  induction todo as [|[F fp] todo IH]; intros cs P Hincl Hcs; [assumption|].
  cbn [fold_left]. rewrite (seeded_step_spec T groups cs P F fp Hnd).
  assert (Hincl' : incl todo groups) by (intros x Hx; apply Hincl; now right).
  destruct (in_set F P) eqn:E; [now apply IH|].
  apply IH; [assumption|].
  rewrite paths_of_app, length_app, covered_merged.
  rewrite (covered_seed F fp P groups Hnd); [| apply Hincl; now left | now apply in_set_false].
  unfold paths_of at 2. simpl. rewrite app_nil_r, length_app. lia.
Qed.

Lemma covered_all (P : gset string) (groups : dict) :
  (forall k, In k (keys groups) -> k ∈ P) -> covered P groups = paths_of groups.
Proof.
  intros H. unfold covered. f_equal. apply List.forallb_filter_id.
  apply forallb_forall. intros e He. apply in_set_true. apply H. now apply in_map.
Qed.

Lemma covered_empty (groups : dict) : covered ∅ groups = [].
Proof.
  unfold covered. rewrite filter_none; [reflexivity|].
  intros e _. apply in_set_false. set_solver.
Qed.

Lemma seeded_partition (T : Z) (groups : dict) :
  List.NoDup (keys groups) ->
  length (paths_of (seeded T groups)) = length (paths_of groups).
Proof.
  intros Hnd. unfold seeded.
  rewrite (seeded_from_covered T groups groups [] ∅ Hnd (incl_refl _))
    by now rewrite covered_empty.
  rewrite covered_all; [reflexivity|].
  pose proof (seeded_from_erase T groups groups [] ∅) as He.
  pose proof (cluster_from_processed T groups groups [] ∅) as [_ Hk].
  change (retained []) with (@nil (list string)) in He. rewrite He in Hk. exact Hk.
Qed.

Lemma retained_dropped_length (cs : dict) :
  length (paths_of cs)
  = (length (concat (retained cs)) + length (paths_of (dropped cs)))%nat.
Proof.
  unfold retained, dropped, paths_of. induction cs as [|c cs IH]; [reflexivity|].
  cbn [List.filter map concat]. rewrite length_app, IH.
  destruct (1 <? length (snd c))%nat; cbn [negb map concat]; rewrite length_app; lia.
Qed.

Lemma dropped_singletons (T : Z) (groups : dict) (cs : dict) :
  nonempty_groups groups -> Forall (cluster_shape T groups) cs ->
  length (paths_of (dropped cs)) = length (dropped cs).
Proof.
  intros Hne Hcs. unfold dropped, paths_of.
  induction Hcs as [|c cs Hc _ IH]; [reflexivity|].
  cbn [List.filter]. destruct (1 <? length (snd c))%nat eqn:E; [exact IH|].
  cbn [negb map concat length]. rewrite length_app, IH.
  destruct Hc as [fp [P [Hin Heq]]].
  unfold nonempty_groups in Hne. rewrite List.Forall_forall in Hne.
  specialize (Hne _ Hin). simpl in Hne.
  apply Nat.ltb_ge in E. rewrite Heq, length_app in E.
  destruct fp as [|x fp]; [congruence|]. simpl in E.
  rewrite Heq, length_app. simpl. lia.
Qed.

(** ** The whole run *)

Lemma paths_of_In (d : dict) (p : string) :
  In p (paths_of d) <-> exists h ps, In (h, ps) d /\ In p ps.
Proof.
  unfold paths_of. rewrite in_concat. split.
  - intros [ps [Hps Hp]]. apply in_map_iff in Hps. destruct Hps as [[h ps'] [Heq Hin]].
    simpl in Heq. subst. now exists h, ps.
  - intros [h [ps [Hin Hp]]]. exists ps. split; [|assumption].
    apply in_map_iff. now exists (h, ps).
Qed.

Lemma cluster_shape_paths (T : Z) (groups : dict) (c : string * list string) (p : string) :
  cluster_shape T groups c -> In p (snd c) ->
  exists G ps, In (G, ps) groups /\ In p ps
               /\ (G = fst c \/ (Z.of_nat (hamming_distance (fst c) G) <= T)%Z).
Proof.
  intros [fp [P [Hin Heq]]] Hp. rewrite Heq in Hp. apply in_app_or in Hp.
  destruct Hp as [Hp|Hp].
  - exists (fst c), fp. auto.
  - apply paths_of_In in Hp. destruct Hp as [G [ps [HG Hps]]].
    apply filter_In in HG. destruct HG as [HG Hm].
    apply merges_within in Hm. simpl in Hm. exists G, ps. tauto.
Qed.

Lemma retained_In (cs : dict) (cl : list string) :
  In cl (retained cs) <-> exists F, In (F, cl) cs /\ (1 < length cl)%nat.
Proof.
  unfold retained. rewrite in_map_iff. split.
  - intros [[F g] [Heq Hin]]. simpl in Heq. subst. apply filter_In in Hin.
    destruct Hin as [Hin Hlt]. simpl in Hlt. apply Nat.ltb_lt in Hlt. now exists F.
  - intros [F [Hin Hlt]]. exists (F, cl). split; [reflexivity|].
    apply filter_In. split; [assumption|]. simpl. now apply Nat.ltb_lt.
Qed.

Section Run.

Variable read_file : string -> result bytes.
Variable md5_hexdigest : bytes -> string.
Variable image_phash : string -> result string.

Local Abbreviation file_md5 := (calculate_file_md5 read_file md5_hexdigest).
Local Abbreviation image_hash := (calculate_image_hash image_phash).
Local Abbreviation organize := (organize_icons read_file md5_hexdigest image_phash).

Local Abbreviation readable := (readable read_file).

Lemma file_md5_readable (p : string) : truthy (file_md5 p) = true -> readable p.
Proof.
  unfold calculate_file_md5, readable. destruct (read_file p) as [c|e]; [now exists c|].
  discriminate.
Qed.

Lemma unique_loop_idle (unique_dir : string) (processed : gset string) (groups : dict)
    (fs : gmap string bytes) (count : nat) :
  (forall k, In k (keys groups) -> k ∈ processed) ->
  for_each (unique_step read_file unique_dir processed) groups (fs, count) = Ok (fs, count).
Proof.
  induction groups as [|[k ps] groups IH]; intros H; [reflexivity|].
  cbn [for_each unique_step].
  assert (Hk : in_set k processed = true) by (apply in_set_true, H; now left).
  rewrite Hk, andb_false_r. simpl. apply IH. intros k' Hk'. apply H. now right.
Qed.

Lemma member_loop_ok (group_dir : string) (group : list string) (fs : gmap string bytes)
    (j : nat) :
  Forall readable group ->
  exists fs', for_each (member_step read_file group_dir) group (fs, j)
              = Ok (fs', (j + length group)%nat).
Proof.
  revert fs j. induction group as [|p group IH]; intros fs j H.
  - exists fs. simpl. f_equal. f_equal. lia.
  - inversion H as [|? ? [c Hc] Hrest]; subst.
    cbn [for_each member_step]. unfold copy2. rewrite Hc. cbn [bind].
    destruct (IH (<[destination group_dir p j fs := c]> fs) (S j) Hrest) as [fs' Hfs'].
    exists fs'. rewrite Hfs'. f_equal. f_equal. simpl. lia.
Qed.

Lemma groups_loop_ok (similar_dir : string) (similar : list (list string))
    (fs : gmap string bytes) (i : nat) :
  Forall (Forall readable) similar ->
  exists fs', for_each (groups_step read_file similar_dir) similar (fs, i)
              = Ok (fs', (i + length similar)%nat).
Proof.
  revert fs i. induction similar as [|g similar IH]; intros fs i H.
  - exists fs. simpl. f_equal. f_equal. lia.
  - inversion H as [|? ? Hg Hrest]; subst.
    cbn [for_each groups_step]. unfold copy_group.
    destruct (member_loop_ok (Path.join similar_dir ("group_" +:+ str_of_nat (i + 1)))
                g fs 0 Hg) as [fs1 Hfs1].
    rewrite Hfs1. cbn [bind].
    destruct (IH fs1 (S i) Hrest) as [fs' Hfs']. exists fs'. rewrite Hfs'.
    f_equal. f_equal. simpl. lia.
Qed.

Lemma representatives_readable (imgs : list string) (p : string) :
  In p (paths_of (group_by image_hash (first_seen file_md5 [] imgs))) -> readable p.
Proof.
  intros Hp. apply paths_of_In in Hp. destruct Hp as [h [ps [Hin Hps]]].
  destruct (group_by_In _ _ _ _ _ Hin Hps) as [Hu _].
  apply first_seen_incl in Hu. apply file_md5_readable. tauto.
Qed.

Lemma clusters_readable (T : Z) (imgs : list string) :
  Forall (Forall readable)
    (retained (seeded T (group_by image_hash (first_seen file_md5 [] imgs)))).
Proof.
  apply List.Forall_forall. intros cl Hcl. apply List.Forall_forall. intros p Hp.
  apply retained_In in Hcl. destruct Hcl as [F [Hin _]].
  pose proof (seeded_shape T _ (group_by_NoDup image_hash (first_seen file_md5 [] imgs)))
    as Hshape.
  rewrite List.Forall_forall in Hshape. specialize (Hshape _ Hin).
  destruct (cluster_shape_paths T _ _ p Hshape Hp) as [G [ps [HG [Hps _]]]].
  apply (representatives_readable imgs). apply paths_of_In. now exists G, ps.
Qed.

Lemma cluster_marks_all (T : Z) (groups : dict) (k : string) :
  In k (keys groups) -> k ∈ snd (cluster T groups).
Proof. intros Hk. unfold cluster. now apply cluster_from_processed. Qed.

(** The run never raises, and its report is determined stage by stage. *)
Lemma organize_icons_run (walk : list (string * list string)) (output_dir : string)
    (T : Z) (fs0 : gmap string bytes) :
  let imgs := scan walk in
  let uniq := first_seen file_md5 [] imgs in
  let phashes := group_by image_hash uniq in
  let similar := retained (seeded T phashes) in
  exists fs2,
    organize walk output_dir T fs0
    = Ok (Report imgs (group_by file_md5 imgs) uniq
            (Z.of_nat (length (keyed file_md5 imgs))
             - Z.of_nat (length (nodup String.string_dec (key_values file_md5 imgs))))%Z
            phashes similar (snd (cluster T phashes)) 0 fs2)
    /\ for_each (groups_step read_file (Path.join output_dir "similar_groups")) similar
         (fs0, 0%nat) = Ok (fs2, length similar).
Proof.
  intros imgs uniq phashes similar. unfold organize_icons.
  rewrite (dedup_group_by file_md5 (scan walk)). cbn [bind]. fold imgs uniq phashes.
  assert (Hmarks : forall k, In k (keys phashes) -> k ∈ snd (cluster T phashes))
    by (intros k; apply cluster_marks_all).
  rewrite (cluster_seeded T phashes) in *. fold similar. cbn [snd] in *.
  rewrite (unique_loop_idle _ _ _ _ _ Hmarks). cbn [bind].
  destruct (groups_loop_ok (Path.join output_dir "similar_groups") similar fs0 0
              (clusters_readable T imgs)) as [fs2 Hfs2].
  exists fs2. rewrite Hfs2. cbn [bind]. split; reflexivity.
Qed.

(** C2: when the clustering loop finishes every key of the fingerprint
    groups is in [processed_hashes], so the guard of the copy loop for
    unique icons holds for no group and [unique_count] is 0. *)
Theorem processed_marks_every_fingerprint (walk : list (string * list string))
    (output_dir : string) (T : Z) (fs0 : gmap string bytes) :
  exists r,
    organize walk output_dir T fs0 = Ok r
    /\ cluster T (phash_groups r) = (similar_groups r, processed_hashes r)
    /\ (forall phash, In phash (keys (phash_groups r)) -> phash ∈ processed_hashes r)
    /\ (forall phash file_paths, In (phash, file_paths) (phash_groups r) ->
          (length file_paths =? 1)%nat && negb (in_set phash (processed_hashes r)) = false)
    /\ unique_count r = 0%nat.
Proof.
  destruct (organize_icons_run walk output_dir T fs0) as [fs2 [Hrun _]].
  eexists. split; [exact Hrun|]. cbn [phash_groups similar_groups processed_hashes unique_count].
  split; [now rewrite cluster_seeded|]. split; [|split; [|reflexivity]].
  - intros k Hk. now apply cluster_marks_all.
  - intros k ps Hin.
    assert (Hk : in_set k (snd (cluster T
              (group_by image_hash (first_seen file_md5 [] (scan walk))))) = true).
    { apply in_set_true, cluster_marks_all. change k with (fst (k, ps)). now apply in_map. }
    rewrite Hk. apply andb_false_r.
Qed.

(** C3, amended: the discovered files are the exact duplicates, the files
    without a digest, the representatives without a fingerprint, the paths
    of the similar groups, and the clusters of a single path, which are
    not kept. *)
Theorem partition_of_discovered_files (walk : list (string * list string))
    (output_dir : string) (T : Z) (fs0 : gmap string bytes) :
  exists r,
    organize walk output_dir T fs0 = Ok r
    /\ Z.of_nat (length (all_images r))
       = (duplicate_count r
          + Z.of_nat (length (unkeyed file_md5 (all_images r)))
          + Z.of_nat (length (unkeyed image_hash (unique_images r)))
          + Z.of_nat (length (concat (similar_groups r)))
          + Z.of_nat (length (dropped (seeded T (phash_groups r)))))%Z
    /\ Forall (fun c => length (snd c) = 1%nat) (dropped (seeded T (phash_groups r))).
Proof.
  destruct (organize_icons_run walk output_dir T fs0) as [fs2 [Hrun _]].
  eexists. split; [exact Hrun|].
  cbn [all_images duplicate_count unique_images similar_groups phash_groups].
  set (imgs := scan walk). set (uniq := first_seen file_md5 [] imgs).
  set (phashes := group_by image_hash uniq).
  assert (Hnd : List.NoDup (keys phashes)) by apply group_by_NoDup.
  assert (Hne : nonempty_groups phashes) by apply group_by_nonempty.
  pose proof (seeded_shape T phashes Hnd) as Hshape.
  split.
  - assert (Hsplit : forall key l, length l
                     = (length (keyed key l) + length (unkeyed key l))%nat).
    { intros key l. unfold keyed, unkeyed. induction l as [|x l IH]; [reflexivity|].
      simpl. destruct (truthy (key x)); simpl; lia. }
    pose proof (Hsplit file_md5 imgs) as H1.
    pose proof (Hsplit image_hash uniq) as H2.
    assert (H3 : length uniq
                 = length (nodup String.string_dec (key_values file_md5 imgs))).
    { rewrite <- distinct_values_count. unfold uniq. rewrite <- group_by_heads.
      pose proof (group_by_nonempty file_md5 imgs) as Hm. revert Hm.
      generalize (group_by file_md5 imgs). intros d Hd. unfold heads.
      induction Hd as [|[k vs] d Hv _ IH]; [reflexivity|]. simpl in *.
      destruct vs; [congruence|]. simpl. now rewrite IH. }
    assert (H4 : length (keyed image_hash uniq)
                 = (length (concat (retained (seeded T phashes)))
                    + length (dropped (seeded T phashes)))%nat).
    { rewrite <- (group_by_size image_hash uniq). fold phashes.
      rewrite <- (seeded_partition T phashes Hnd), retained_dropped_length.
      now rewrite (dropped_singletons T phashes _ Hne Hshape). }
    assert (H5 : (length (nodup String.string_dec (key_values file_md5 imgs))
                  <= length (keyed file_md5 imgs))%nat).
    { rewrite <- distinct_values_count, <- (group_by_size file_md5 imgs).
      pose proof (group_by_nonempty file_md5 imgs) as Hm. revert Hm.
      generalize (group_by file_md5 imgs). intros d Hd.
      induction Hd as [|[k vs] d Hv _ IH]; [simpl; lia|]. simpl in *.
      rewrite paths_of_cons, length_app. simpl. destruct vs; [congruence|]. simpl. lia. }
    lia.
  - apply List.Forall_forall. intros c Hc. unfold dropped in Hc. apply filter_In in Hc.
    destruct Hc as [Hin Hsmall]. apply negb_true_iff, Nat.ltb_ge in Hsmall.
    rewrite List.Forall_forall in Hshape. destruct (Hshape c Hin) as [fp [P [Hfp Heq]]].
    unfold nonempty_groups in Hne. rewrite List.Forall_forall in Hne.
    specialize (Hne _ Hfp). simpl in Hne. rewrite Heq, length_app in *.
    destruct fp; [congruence|]. simpl in *. lia.
Qed.

(** C5: every path of a retained cluster carries the fingerprint of the
    seed, which is the fingerprint of the first path of the cluster, or a
    fingerprint whose mismatch count from the seed is at most [T]. *)
Theorem cluster_within_threshold (walk : list (string * list string))
    (output_dir : string) (T : Z) (fs0 : gmap string bytes) :
  exists r,
    organize walk output_dir T fs0 = Ok r
    /\ Forall (fun cl =>
         exists F first rest,
           cl = first :: rest /\ image_hash first = Some F
           /\ In F (keys (phash_groups r))
           /\ forall p, In p cl ->
                exists G, image_hash p = Some G /\ In G (keys (phash_groups r))
                          /\ (G = F \/ (Z.of_nat (hamming_distance F G) <= T)%Z))
         (similar_groups r).
Proof.
  destruct (organize_icons_run walk output_dir T fs0) as [fs2 [Hrun _]].
  eexists. split; [exact Hrun|]. cbn [similar_groups phash_groups].
  set (uniq := first_seen file_md5 [] (scan walk)).
  set (phashes := group_by image_hash uniq).
  assert (Hnd : List.NoDup (keys phashes)) by apply group_by_NoDup.
  assert (Hne : nonempty_groups phashes) by apply group_by_nonempty.
  pose proof (seeded_shape T phashes Hnd) as Hshape.
  rewrite List.Forall_forall in Hshape.
  apply List.Forall_forall. intros cl Hcl. apply retained_In in Hcl.
  destruct Hcl as [F [Hin _]]. specialize (Hshape _ Hin).
  assert (Hkey : forall G ps, In (G, ps) phashes -> In G (keys phashes))
    by (intros G ps HG; change G with (fst (G, ps)); now apply in_map).
  destruct Hshape as [fp [P [Hfp Heq]]]. simpl in Hfp, Heq.
  unfold nonempty_groups in Hne. rewrite List.Forall_forall in Hne.
  pose proof (Hne _ Hfp) as Hfpne. simpl in Hfpne.
  destruct fp as [|first fp]; [congruence|].
  exists F, first, (fp ++ paths_of (List.filter (merges T F P) phashes)).
  split; [exact Heq|]. split; [|split].
  - apply (group_by_In image_hash uniq F first (first :: fp) Hfp). now left.
  - now apply (Hkey F (first :: fp)).
  - intros p Hp.
    assert (Hshape : cluster_shape T phashes (F, cl))
      by (exists (first :: fp), P; split; assumption).
    destruct (cluster_shape_paths T phashes (F, cl) p Hshape Hp) as [G [ps [HG [Hps Hd]]]].
    exists G. split; [|split].
    + now apply (group_by_In image_hash uniq G p ps HG).
    + now apply (Hkey G ps).
    + exact Hd.
Qed.

End Run.

(** ** The threshold *)

Lemma merges_mono (T1 T2 : Z) (F : string) (P : gset string) (e : string * list string) :
  (T1 <= T2)%Z -> merges T1 F P e = true -> merges T2 F P e = true.
Proof.
  intros HT. rewrite !merges_within. intros [H1 [H2 H3]].
  split; [exact H1|]. split; [exact H2|]. now apply (Z.le_trans _ T1).
Qed.

Lemma filter_weaken_paths (f g : string * list string -> bool) (l : dict) :
  (forall e, f e = true -> g e = true) ->
  (length (paths_of (List.filter f l)) <= length (paths_of (List.filter g l)))%nat
  /\ incl (paths_of (List.filter f l)) (paths_of (List.filter g l)).
Proof.
  intros Hfg. induction l as [|e l [IH1 IH2]]; [split; [simpl; lia | apply incl_refl]|].
  cbn [List.filter]. destruct (f e) eqn:Ef.
  - rewrite (Hfg e Ef), !paths_of_cons, !length_app. split; [lia|].
    apply incl_app; [apply incl_appl, incl_refl | now apply incl_appr].
  - destruct (g e); [|now split]. rewrite paths_of_cons, length_app. split; [lia|].
    now apply incl_appr.
Qed.

Lemma seeded_step_prefix (T : Z) (groups : dict) (cs : dict) (P : gset string)
    (e : string * list string) :
  exists more P', seeded_step T groups (cs, P) e = (cs ++ more, P').
Proof.
  unfold seeded_step. destruct e as [F fp]. destruct (in_set F P).
  - exists [], P. now rewrite app_nil_r.
  - destruct (scan_others T F groups (fp, {[F]} ∪ P)) as [g P']. now exists [(F, g)], P'.
Qed.

Lemma seeded_from_prefix (T : Z) (groups todo : dict) (cs : dict) (P : gset string) :
  exists more, fst (seeded_from T groups todo (cs, P)) = cs ++ more.
Proof.
  unfold seeded_from. revert cs P. induction todo as [|e todo IH]; intros cs P.
  - exists []. simpl. now rewrite app_nil_r.
  - cbn [fold_left].
    destruct (seeded_step_prefix T groups cs P e) as [m1 [P' Hstep]].
    destruct (IH (cs ++ m1) P') as [m2 Hm2]. exists (m1 ++ m2).
    rewrite Hstep. etransitivity; [exact Hm2|]. symmetry. apply List.app_assoc.
Qed.

Lemma seeded_first (T : Z) (F : string) (fp : list string) (rest : dict) :
  exists more,
    seeded T ((F, fp) :: rest)
    = (F, fst (scan_others T F ((F, fp) :: rest) (fp, {[F]} ∪ ∅))) :: more.
Proof.
  unfold seeded.
  assert (Hstep : seeded_step T ((F, fp) :: rest) ([], ∅) (F, fp)
                  = ([(F, fst (scan_others T F ((F, fp) :: rest) (fp, {[F]} ∪ ∅)))],
                     snd (scan_others T F ((F, fp) :: rest) (fp, {[F]} ∪ ∅)))).
  { unfold seeded_step.
    assert (HF : in_set F ∅ = false) by (apply in_set_false; set_solver).
    rewrite HF. now destruct (scan_others T F ((F, fp) :: rest) (fp, {[F]} ∪ ∅)). }
  unfold seeded_from at 1. cbn [fold_left]. rewrite Hstep.
  apply (seeded_from_prefix T ((F, fp) :: rest) rest).
Qed.

(** C6, amended: a scan started for the same seed from the same set of
    processed fingerprints builds, at the higher threshold, a cluster that
    contains every path of the cluster built at the lower threshold and is
    at least as large; this is the case of the first fingerprint in
    enumeration order, which seeds the first cluster at every threshold. *)
Theorem scan_monotone_in_threshold (T1 T2 : Z) (groups : dict) (F : string)
    (file_paths : list string) (processed : gset string) :
  List.NoDup (keys groups) ->
  (T1 <= T2)%Z ->
  let cluster1 := fst (scan_others T1 F groups (file_paths, processed)) in
  let cluster2 := fst (scan_others T2 F groups (file_paths, processed)) in
  (length cluster1 <= length cluster2)%nat
  /\ incl cluster1 cluster2
  /\ (forall rest, groups = (F, file_paths) :: rest ->
        exists c1 c2 more1 more2,
          seeded T1 groups = (F, c1) :: more1
          /\ seeded T2 groups = (F, c2) :: more2
          /\ (length c1 <= length c2)%nat /\ incl c1 c2).
Proof.
  intros Hnd HT.
  assert (Hscan : forall g P,
            (length (fst (scan_others T1 F groups (g, P)))
             <= length (fst (scan_others T2 F groups (g, P))))%nat
            /\ incl (fst (scan_others T1 F groups (g, P)))
                    (fst (scan_others T2 F groups (g, P)))).
  { intros g P. rewrite !(scan_others_spec _ F groups g P Hnd). cbn [fst].
    destruct (filter_weaken_paths (merges T1 F P) (merges T2 F P) groups
                (fun e => merges_mono T1 T2 F P e HT)) as [Hl Hi].
    rewrite !length_app. split; [lia|].
    apply incl_app; [apply incl_appl, incl_refl | now apply incl_appr]. }
  intros cluster1 cluster2. split; [apply Hscan|]. split; [apply Hscan|].
  intros rest ->.
  destruct (seeded_first T1 F file_paths rest) as [more1 H1].
  destruct (seeded_first T2 F file_paths rest) as [more2 H2].
  eexists _, _, more1, more2. split; [exact H1|]. split; [exact H2|]. apply Hscan.
Qed.

(** ** Concrete runs *)

Lemma greedy_keys_distinct : List.NoDup (keys groups_greedy).
Proof. apply NoDup_ListNoDup. apply (bool_decide_unpack _). vm_compute. exact I. Qed.

Lemma clustering_pass_rule_witness :
  List.NoDup (keys groups_greedy)
  /\ ("0000000000000000" ∉ (∅ : gset string))
  /\ fst (scan_others 2 "0000000000000000" groups_greedy
            (["e.png"], {["0000000000000000"]} ∪ ∅))
     = ["e.png"; "g.png"].
Proof.
  assert (H1 : List.NoDup (keys groups_greedy))
    by (apply NoDup_ListNoDup; apply (bool_decide_unpack _); vm_compute; exact I).
  assert (H2 : "0000000000000000" ∉ (∅ : gset string)) by apply not_elem_of_empty.
  split; [exact H1|]. split; [exact H2|].
  destruct (clustering_pass_rule 2 groups_greedy "0000000000000000" ["e.png"] [] ∅ H1 H2)
    as (_ & _ & Hscan & _).
  rewrite Hscan. vm_compute. reflexivity.
Defined.

Lemma scan_monotone_in_threshold_witness :
  List.NoDup (keys groups_greedy) /\ (1 <= 2)%Z
  /\ (length (fst (scan_others 1 "0000000000000000" groups_greedy (["e.png"], ∅)))
      <= length (fst (scan_others 2 "0000000000000000" groups_greedy (["e.png"], ∅))))%nat.
Proof.
  assert (H1 : List.NoDup (keys groups_greedy))
    by (apply NoDup_ListNoDup; apply (bool_decide_unpack _); vm_compute; exact I).
  assert (H2 : (1 <= 2)%Z) by lia.
  split; [exact H1|]. split; [exact H2|].
  apply (scan_monotone_in_threshold 1 2 groups_greedy "0000000000000000" ["e.png"] ∅ H1 H2).
Defined.

(** C6 as stated fails: at threshold 1 the second fingerprint seeds a
    cluster of two paths; at threshold 2 the first seed takes one of them
    and the cluster of the second seed has a single path. *)
Lemma raising_threshold_shrinks_cluster :
  ~ (forall (groups : dict) (T1 T2 : Z) (F : string) (c1 : list string),
       List.NoDup (keys groups) -> (T1 <= T2)%Z ->
       In (F, c1) (seeded T1 groups) -> In c1 (fst (cluster T1 groups)) ->
       exists c2, In (F, c2) (seeded T2 groups) /\ (length c1 <= length c2)%nat).
Proof.
  intros H.
  destruct (H groups_greedy 1%Z 2%Z "1110000000000000" ["f.png"; "g.png"]
              greedy_keys_distinct ltac:(lia)) as [c2 [Hin Hlen]].
  - vm_compute. right. left. reflexivity.
  - vm_compute. left. reflexivity.
  - vm_compute in Hin. destruct Hin as [Hin|[Hin|[]]]; inversion Hin; subst.
    simpl in Hlen. lia.
Qed.

(** C1 on a lone image: the fingerprint group has one path and nothing is
    merged, yet no file is written and [unique_count] stays 0. *)
Theorem lone_icon_is_not_emitted :
  exists r,
    run world_single walk_single "out" 2 ∅ = Ok r
    /\ phash_groups r = [("c3a5f00f3c5a0ff0", ["r/a.png"])]
    /\ similar_groups r = []
    /\ unique_count r = 0%nat
    /\ out_fs r = ∅.
Proof.
  eexists. split; [vm_compute; reflexivity|]. repeat split.
Qed.

(** C3 as stated fails on two different images with similar fingerprints:
    both are discovered, neither is a duplicate, excluded or unique. *)
Lemma partition_completeness_fails :
  exists r,
    run world_pair walk_pair "out" 2 ∅ = Ok r
    /\ (Z.of_nat (unique_count r) + duplicate_count r
        + Z.of_nat (length (unkeyed (calculate_file_md5 (world_read world_pair) toy_md5)
                              (all_images r)))
        + Z.of_nat (length (unkeyed (calculate_image_hash (world_phash world_pair))
                              (unique_images r))))%Z
       <> Z.of_nat (length (all_images r)).
Proof.
  eexists. split; [vm_compute; reflexivity|]. vm_compute. discriminate.
Qed.

(** C10 on three similar images: the third, [icon.png] at index 2, finds
    [icon.png] taken and is written to [icon_2.png], over the copy of the
    second image; the content of the second image is in no output file. *)
Theorem suffixed_name_overwrites :
  exists r,
    run world_clash walk_clash "out" 2 ∅ = Ok r
    /\ similar_groups r = [["r/a/icon.png"; "r/b/icon_2.png"; "r/c/icon.png"]]
    /\ unique_count r = 0%nat
    /\ out_fs r = <["out/similar_groups/group_1/icon.png" := [Byte.x01]]>
                  (<["out/similar_groups/group_1/icon_2.png" := [Byte.x03]]> ∅)
    /\ world_read world_clash "r/b/icon_2.png" = Ok [Byte.x02]
    /\ forall path, out_fs r !! path <> Some [Byte.x02].
Proof.
  eexists. split; [vm_compute; reflexivity|].
  split; [reflexivity|]. split; [reflexivity|].
  assert (Hfs : forall m : gmap string bytes,
            m = <["out/similar_groups/group_1/icon.png" := [Byte.x01]]>
                  (<["out/similar_groups/group_1/icon_2.png" := [Byte.x03]]> ∅) ->
            forall path, m !! path <> Some [Byte.x02]).
  { intros m -> path. rewrite !lookup_insert. repeat case_decide;
      first [discriminate | rewrite lookup_empty; discriminate]. }
  split; [vm_compute; reflexivity|]. split; [reflexivity|].
  apply Hfs. vm_compute. reflexivity.
Qed.

(** ** The scenario of three files *)

Lemma truthy_Some (h : string) : h <> EmptyString -> truthy (Some h) = true.
Proof. destruct h; [congruence | reflexivity]. Qed.

Lemma perm3 {A : Type} (a b c : A) (l : list A) :
  Permutation l [a; b; c] ->
  l = [a; b; c] \/ l = [a; c; b] \/ l = [b; a; c]
  \/ l = [b; c; a] \/ l = [c; a; b] \/ l = [c; b; a].
Proof.
  intros H. symmetry in H.
  destruct (Permutation.Permutation_vs_cons_inv (Permutation_sym H)) as [l1 [l2 ->]].
  apply Permutation.Permutation_cons_app_inv in H.
  apply Permutation.Permutation_length_2_inv in H.
  destruct l1 as [|x [|y [|z l1]]]; simpl in H; destruct H as [H|H];
    try (injection H as <- <-); try (injection H as <- ->); try discriminate H;
    subst; simpl; try tauto.
  all: destruct l1; discriminate.
Qed.

Section Scenario.

Variable key : string -> option string.

Lemma group_by_pair (x y fx fy : string) :
  key x = Some fx -> key y = Some fy -> fx <> EmptyString -> fy <> EmptyString ->
  group_by key [x; y]
  = if String.eqb fx fy then [(fx, [x; y])] else [(fx, [x]); (fy, [y])].
Proof.
  intros Hx Hy Hfx Hfy. unfold group_by. cbn [fold_left]. unfold group_add.
  rewrite Hx, Hy, (truthy_Some fx Hfx), (truthy_Some fy Hfy). reflexivity.
Qed.

Lemma group_by_triple (x y z dx dz : string) :
  key x = Some dx -> key y = Some dx -> key z = Some dz ->
  dx <> EmptyString -> dz <> EmptyString -> dx <> dz ->
  group_by key [x; y; z] = [(dx, [x; y]); (dz, [z])]
  /\ group_by key [x; z; y] = [(dx, [x; y]); (dz, [z])]
  /\ group_by key [z; x; y] = [(dz, [z]); (dx, [x; y])].
Proof.
  intros Hx Hy Hz Hdx Hdz Hne. unfold group_by. cbn [fold_left]. unfold group_add.
  rewrite Hx, Hy, Hz, (truthy_Some dx Hdx), (truthy_Some dz Hdz). cbn [dict_append].
  assert (E1 : String.eqb dx dz = false) by now apply String.eqb_neq.
  assert (E2 : String.eqb dz dx = false) by (apply String.eqb_neq; congruence).
  rewrite ?String.eqb_refl, ?E1, ?E2. cbn [dict_append app].
  rewrite ?String.eqb_refl, ?E1, ?E2. cbn [dict_append app].
  rewrite ?String.eqb_refl, ?E1, ?E2. repeat split.
Qed.

Lemma pair_clusters (T : Z) (x y fx fy : string) :
  key x = Some fx -> key y = Some fy -> fx <> EmptyString -> fy <> EmptyString ->
  (Z.of_nat (hamming_distance fx fy) <= T)%Z ->
  retained (seeded T (group_by key [x; y])) = [[x; y]].
Proof.
  intros Hx Hy Hfx Hfy Hd. rewrite (group_by_pair x y fx fy Hx Hy Hfx Hfy).
  assert (Hempty : forall s, in_set s ∅ = false) by (intros s; apply in_set_false; set_solver).
  destruct (String.eqb fx fy) eqn:E.
  - assert (Hnd : List.NoDup (keys [(fx, [x; y])]))
      by (constructor; [intros [] | constructor]).
    unfold seeded, seeded_from. cbn [fold_left].
    rewrite (seeded_step_spec T _ _ _ _ _ Hnd), Hempty.
    cbn [List.filter]. unfold merges at 1. cbn [fst]. rewrite String.eqb_refl.
    reflexivity.
  - apply String.eqb_neq in E.
    assert (Hnd : List.NoDup (keys [(fx, [x]); (fy, [y])])).
    { cbn [keys map fst]. constructor; [intros [H|[]]; congruence|].
      constructor; [intros [] | constructor]. }
    assert (Hm1 : merges T fx ({[fx]} ∪ ∅) (fx, [x]) = false)
      by (unfold merges; cbn [fst]; now rewrite String.eqb_refl).
    assert (Hm2 : merges T fx ({[fx]} ∪ ∅) (fy, [y]) = true).
    { apply merges_within. cbn [fst]. split; [congruence|]. split; [set_solver | assumption]. }
    unfold seeded, seeded_from. cbn [fold_left].
    rewrite (seeded_step_spec T _ _ _ _ _ Hnd), Hempty.
    cbn [List.filter]. rewrite Hm1, Hm2.
    rewrite (seeded_step_spec T _ _ _ _ _ Hnd).
    assert (Hin : in_set fy (list_to_set (keys [(fy, [y])]) ∪ ({[fx]} ∪ ∅)) = true)
      by (apply in_set_true; cbn [keys map list_to_set fst]; set_solver).
    rewrite Hin. reflexivity.
Qed.

End Scenario.

Section ScenarioRun.

Variable read_file : string -> result bytes.
Variable md5_hexdigest : bytes -> string.
Variable image_phash : string -> result string.

Local Abbreviation file_md5 := (calculate_file_md5 read_file md5_hexdigest).
Local Abbreviation image_hash := (calculate_image_hash image_phash).
Local Abbreviation organize := (organize_icons read_file md5_hexdigest image_phash).

(** C8: with [b] a byte copy of [a], and [c] of different content whose
    fingerprint is within two mismatches of the fingerprint of [a], the
    run at threshold 2 counts one duplicate and no unique icon, and builds
    exactly one similar group, of the representative of [a] and [c]. *)
Theorem three_file_scenario (walk : list (string * list string)) (output_dir : string)
    (fs0 : gmap string bytes) (a b c : string) (content_a content_c : bytes)
    (fa fc : string) :
  Permutation (scan walk) [a; b; c] ->
  read_file a = Ok content_a -> read_file b = Ok content_a ->
  read_file c = Ok content_c ->
  md5_hexdigest content_a <> md5_hexdigest content_c ->
  md5_hexdigest content_a <> EmptyString -> md5_hexdigest content_c <> EmptyString ->
  image_phash a = Ok fa -> image_phash b = Ok fa -> image_phash c = Ok fc ->
  fa <> EmptyString -> fc <> EmptyString ->
  (hamming_distance fa fc <= 2)%nat ->
  exists r rep,
    organize walk output_dir 2 fs0 = Ok r
    /\ (rep = a \/ rep = b)
    /\ duplicate_count r = 1%Z
    /\ unique_count r = 0%nat
    /\ (unique_images r = [rep; c] \/ unique_images r = [c; rep])
    /\ similar_groups r = [unique_images r].
Proof.
  intros Hperm Ha Hb Hc Hne Hda Hdc Hfa Hfb Hfc Hfane Hfcne Hdist.
  assert (Ka : file_md5 a = Some (md5_hexdigest content_a))
    by (unfold calculate_file_md5; now rewrite Ha).
  assert (Kb : file_md5 b = Some (md5_hexdigest content_a))
    by (unfold calculate_file_md5; now rewrite Hb).
  assert (Kc : file_md5 c = Some (md5_hexdigest content_c))
    by (unfold calculate_file_md5; now rewrite Hc).
  assert (Pa : image_hash a = Some fa) by (unfold calculate_image_hash; now rewrite Hfa).
  assert (Pb : image_hash b = Some fa) by (unfold calculate_image_hash; now rewrite Hfb).
  assert (Pc : image_hash c = Some fc) by (unfold calculate_image_hash; now rewrite Hfc).
  assert (D1 : (Z.of_nat (hamming_distance fa fc) <= 2)%Z) by lia.
  assert (D2 : (Z.of_nat (hamming_distance fc fa) <= 2)%Z)
    by (rewrite hamming_distance_sym; lia).
  destruct (organize_icons_run read_file md5_hexdigest image_phash walk output_dir 2 fs0)
    as [fs2 [Hrun _]].
  pose proof (dedup_group_by file_md5 (scan walk)) as Hstage.
  assert (Hcases : exists rep,
            (rep = a \/ rep = b)
            /\ (dedup (group_by file_md5 (scan walk)) = Ok ([rep; c], 1%Z)
                \/ dedup (group_by file_md5 (scan walk)) = Ok ([c; rep], 1%Z))).
  { destruct (group_by_triple file_md5 a b c _ _ Ka Kb Kc Hda Hdc Hne) as [G1 [G2 G3]].
    destruct (group_by_triple file_md5 b a c _ _ Kb Ka Kc Hda Hdc Hne) as [G4 [G5 G6]].
    destruct (perm3 a b c _ Hperm) as [E|[E|[E|[E|[E|E]]]]]; rewrite E.
    - exists a. rewrite G1. split; [now left | now left].
    - exists a. rewrite G2. split; [now left | now left].
    - exists b. rewrite G4. split; [now right | now left].
    - exists b. rewrite G5. split; [now right | now left].
    - exists a. rewrite G3. split; [now left | now right].
    - exists b. rewrite G6. split; [now right | now right]. }
  destruct Hcases as [rep [Hrep Hded]].
  assert (Prep : image_hash rep = Some fa) by (destruct Hrep; subst; assumption).
  eexists. exists rep. split; [exact Hrun|].
  cbn [duplicate_count unique_count unique_images similar_groups].
  rewrite Hstage in Hded.
  destruct Hded as [Hded|Hded]; injection Hded as Hu Hn; rewrite Hu, Hn.
  - rewrite (pair_clusters image_hash 2 rep c fa fc Prep Pc Hfane Hfcne D1). tauto.
  - rewrite (pair_clusters image_hash 2 c rep fc fa Pc Prep Hfcne Hfane D2). tauto.
Qed.

(** C9: a failed digest or fingerprint computation yields [None]; the
    path is left out of the grouping, which treats the other paths as if
    it were absent; the run returns a report in every case, in which such
    a path is in no group. *)
Theorem per_file_failures_are_local (walk : list (string * list string))
    (output_dir : string) (T : Z) (fs0 : gmap string bytes) :
  (forall p e, read_file p = Raise e ->
     file_md5 p = None
     /\ forall before after,
          group_by file_md5 (before ++ p :: after) = group_by file_md5 (before ++ after))
  /\ (forall p e, image_phash p = Raise e ->
        image_hash p = None
        /\ forall before after,
             group_by image_hash (before ++ p :: after)
             = group_by image_hash (before ++ after))
  /\ exists r,
       organize walk output_dir T fs0 = Ok r
       /\ (forall p e, read_file p = Raise e ->
             ~ In p (paths_of (md5_groups r)) /\ ~ In p (unique_images r)
             /\ ~ In p (paths_of (phash_groups r)) /\ ~ In p (concat (similar_groups r)))
       /\ (forall p e, image_phash p = Raise e ->
             ~ In p (paths_of (phash_groups r)) /\ ~ In p (concat (similar_groups r))).
Proof.
  assert (Hmd5 : forall p e, read_file p = Raise e -> file_md5 p = None)
    by (intros p e H; unfold calculate_file_md5; now rewrite H).
  assert (Hph : forall p e, image_phash p = Raise e -> image_hash p = None)
    by (intros p e H; unfold calculate_image_hash; now rewrite H).
  split; [|split].
  - intros p e H. split; [now apply (Hmd5 p e)|]. intros before after.
    apply group_by_skip. now rewrite (Hmd5 p e H).
  - intros p e H. split; [now apply (Hph p e)|]. intros before after.
    apply group_by_skip. now rewrite (Hph p e H).
  - destruct (organize_icons_run read_file md5_hexdigest image_phash walk output_dir T fs0)
      as [fs2 [Hrun _]].
    eexists. split; [exact Hrun|].
    cbn [md5_groups unique_images phash_groups similar_groups].
    set (imgs := scan walk). set (uniq := first_seen file_md5 [] imgs).
    set (phashes := group_by image_hash uniq).
    assert (Hgroup : forall p, In p (paths_of phashes) ->
                       In p uniq /\ truthy (image_hash p) = true).
    { intros p Hp. apply paths_of_In in Hp. destruct Hp as [h [ps [Hin Hps]]].
      destruct (group_by_In _ _ _ _ _ Hin Hps) as [H1 [_ H2]]. now split. }
    assert (Hsim : forall p, In p (concat (retained (seeded T phashes))) ->
                     In p (paths_of phashes)).
    { intros p Hp. apply in_concat in Hp. destruct Hp as [cl [Hcl Hp]].
      apply retained_In in Hcl. destruct Hcl as [F [Hin _]].
      pose proof (seeded_shape T phashes (group_by_NoDup image_hash uniq)) as Hshape.
      rewrite List.Forall_forall in Hshape.
      destruct (cluster_shape_paths T phashes _ p (Hshape _ Hin) Hp) as [G [ps [HG [Hps _]]]].
      apply paths_of_In. now exists G, ps. }
    assert (Huniq : forall p, In p uniq -> truthy (file_md5 p) = true)
      by (intros p Hp; now apply (first_seen_incl file_md5 imgs [] p)).
    split.
    + intros p e H. pose proof (Hmd5 p e H) as Hnone.
      assert (Hu : ~ In p uniq)
        by (intros Hp; apply Huniq in Hp; rewrite Hnone in Hp; discriminate).
      split; [|split; [exact Hu|split]].
      * intros Hp. apply paths_of_In in Hp. destruct Hp as [h [ps [Hin Hps]]].
        destruct (group_by_In _ _ _ _ _ Hin Hps) as [_ [_ Ht]].
        rewrite Hnone in Ht. discriminate.
      * intros Hp. apply Hu. now apply Hgroup.
      * intros Hp. apply Hu. now apply Hgroup, Hsim.
    + intros p e H. pose proof (Hph p e H) as Hnone.
      assert (Hg : ~ In p (paths_of phashes))
        by (intros Hp; apply Hgroup in Hp; destruct Hp as [_ Ht];
            rewrite Hnone in Ht; discriminate).
      split; [exact Hg|]. intros Hp. apply Hg. now apply Hsim.
Qed.

End ScenarioRun.

Lemma three_file_scenario_witness :
  exists r rep,
    run world_three walk_three "out" 2 ∅ = Ok r
    /\ (rep = "r/a.png" \/ rep = "r/b.png")
    /\ duplicate_count r = 1%Z
    /\ unique_count r = 0%nat
    /\ (unique_images r = [rep; "r/c.png"] \/ unique_images r = ["r/c.png"; rep])
    /\ similar_groups r = [unique_images r].
Proof.
  apply (three_file_scenario (world_read world_three) toy_md5 (world_phash world_three)
           walk_three "out" ∅ "r/a.png" "r/b.png" "r/c.png" [Byte.x01] [Byte.x02]
           "c3a5f00f3c5a0ff0" "c3a5f00f3c5a0f11").
  - vm_compute. reflexivity.
  - reflexivity.
  - reflexivity.
  - reflexivity.
  - vm_compute. discriminate.
  - vm_compute. discriminate.
  - vm_compute. discriminate.
  - reflexivity.
  - reflexivity.
  - reflexivity.
  - discriminate.
  - discriminate.
  - vm_compute. lia.
Defined.

Lemma per_file_failures_witness :
  calculate_file_md5 (world_read world_faulty) toy_md5 "r/locked.png" = None
  /\ calculate_image_hash (world_phash world_faulty) "r/drawing.svg" = None
  /\ exists r,
       run world_faulty walk_faulty "out" 2 ∅ = Ok r
       /\ ~ In "r/locked.png" (unique_images r)
       /\ ~ In "r/drawing.svg" (paths_of (phash_groups r)).
Proof.
  destruct (per_file_failures_are_local (world_read world_faulty) toy_md5
              (world_phash world_faulty) walk_faulty "out" 2 ∅)
    as [H1 [H2 [r [Hrun [H3 H4]]]]].
  assert (E1 : world_read world_faulty "r/locked.png" = Raise (OSError "r/locked.png"))
    by reflexivity.
  assert (E2 : world_phash world_faulty "r/drawing.svg" = Raise (OSError "r/drawing.svg"))
    by reflexivity.
  split; [exact (proj1 (H1 _ _ E1))|]. split; [exact (proj1 (H2 _ _ E2))|].
  exists r. split; [exact Hrun|]. split.
  - exact (proj1 (proj2 (H3 _ _ E1))).
  - exact (proj1 (H4 _ _ E2)).
Defined.

(** * Further properties *)

(** ** The distance as a function of two strings *)

Lemma hamming_distance_le_length (s1 s2 : string) :
  (hamming_distance s1 s2 <= Nat.min (String.length s1) (String.length s2))%nat.
Proof.
  revert s2. induction s1 as [|c1 r1 IH]; intros s2;
    [rewrite hamming_distance_nil_l; lia|].
  destruct s2 as [|c2 r2]; [rewrite hamming_distance_nil_r; lia|].
  rewrite hamming_distance_cons. specialize (IH r2). cbn [String.length].
  destruct (Ascii.eqb c1 c2); simpl; lia.
Qed.

(** X1: The distance does not depend on which fingerprint is the seed, and it
    is at most the length of the shorter string. *)
Theorem distance_symmetric_bounded (s1 s2 : string) :
  hamming_distance s1 s2 = hamming_distance s2 s1
  /\ (hamming_distance s1 s2 <= Nat.min (String.length s1) (String.length s2))%nat.
Proof. split; [apply hamming_distance_sym | apply hamming_distance_le_length]. Qed.

Lemma hamming_distance_zero_prefix (s1 s2 : string) :
  (String.length s1 <= String.length s2)%nat ->
  (hamming_distance s1 s2 = 0%nat <-> String.prefix s1 s2 = true).
Proof.
  revert s2. induction s1 as [|c1 r1 IH]; intros s2 Hlen.
  - rewrite hamming_distance_nil_l. destruct s2; split; reflexivity.
  - destruct s2 as [|c2 r2]; [simpl in Hlen; lia|].
    cbn [String.length] in Hlen. rewrite hamming_distance_cons. cbn [String.prefix].
    destruct (ascii_dec c1 c2) as [->|Hne].
    + rewrite Ascii.eqb_refl. simpl. apply IH. lia.
    + apply Ascii.eqb_neq in Hne. rewrite Hne. simpl. split; discriminate.
Qed.

Lemma prefix_same_length (s1 s2 : string) :
  String.length s1 = String.length s2 -> String.prefix s1 s2 = true -> s1 = s2.
Proof.
  revert s2. induction s1 as [|c1 r1 IH]; intros s2 Hlen Hp.
  - destruct s2; [reflexivity | discriminate].
  - destruct s2 as [|c2 r2]; [discriminate|]. cbn [String.prefix] in Hp.
    destruct (ascii_dec c1 c2) as [->|]; [|discriminate].
    f_equal. apply IH; [simpl in Hlen; lia | assumption].
Qed.

Lemma prefix_length (s1 s2 : string) :
  String.prefix s1 s2 = true -> (String.length s1 <= String.length s2)%nat.
Proof.
  revert s2. induction s1 as [|c1 r1 IH]; intros s2 Hp; [simpl; lia|].
  destruct s2 as [|c2 r2]; [discriminate|]. cbn [String.prefix] in Hp.
  destruct (ascii_dec c1 c2); [|discriminate]. specialize (IH _ Hp).
  cbn [String.length]. lia.
Qed.

Lemma prefix_refl (s : string) : String.prefix s s = true.
Proof.
  induction s as [|c r IH]; [reflexivity|]. cbn [String.prefix].
  destruct (ascii_dec c c); [assumption | congruence].
Qed.

(** X2: Two strings are at distance 0 exactly when one is a prefix of the
    other, since [zip] stops at the shorter one; strings of the same
    length are at distance 0 only when they are equal. *)
Theorem distance_zero_iff_prefix (s1 s2 : string) :
  (hamming_distance s1 s2 = 0%nat
   <-> String.prefix s1 s2 = true \/ String.prefix s2 s1 = true)
  /\ (String.length s1 = String.length s2 ->
      (hamming_distance s1 s2 = 0%nat <-> s1 = s2)).
Proof.
  split.
  - split.
    + intros H0. destruct (Nat.le_ge_cases (String.length s1) (String.length s2)) as [H|H].
      * left. now apply hamming_distance_zero_prefix.
      * right. apply hamming_distance_zero_prefix; [assumption|].
        now rewrite hamming_distance_sym.
    + intros [H|H].
      * apply hamming_distance_zero_prefix; [now apply prefix_length | assumption].
      * rewrite hamming_distance_sym.
        apply hamming_distance_zero_prefix; [now apply prefix_length | assumption].
  - intros Hlen. split.
    + intros H0. apply prefix_same_length; [assumption|].
      apply hamming_distance_zero_prefix; [lia | assumption].
    + intros ->. apply hamming_distance_refl.
Qed.

(** X3: The triangle inequality holds through a middle string that is at
    least as long as the shorter of the two ends. *)
Theorem distance_triangle (a b c : string) :
  (Nat.min (String.length a) (String.length c) <= String.length b)%nat ->
  (hamming_distance a c <= hamming_distance a b + hamming_distance b c)%nat.
Proof.
  revert b c. induction a as [|x a IH]; intros b c Hlen.
  - rewrite hamming_distance_nil_l. lia.
  - destruct c as [|z c]; [rewrite hamming_distance_nil_r; lia|].
    destruct b as [|y b]; [simpl in Hlen; lia|].
    rewrite !hamming_distance_cons.
    assert (IH' := IH b c ltac:(simpl in Hlen; lia)).
    destruct (Ascii.eqb x z) eqn:Exz; [simpl; lia|].
    destruct (Ascii.eqb x y) eqn:Exy; [|simpl; lia].
    apply Ascii.eqb_eq in Exy. subst y. rewrite Exz. simpl. lia.
Qed.

Lemma distance_triangle_witness :
  (Nat.min (String.length "c3a5") (String.length "c3b6") <= String.length "c3a6")%nat
  /\ (hamming_distance "c3a5" "c3b6"
      <= hamming_distance "c3a5" "c3a6" + hamming_distance "c3a6" "c3b6")%nat.
Proof.
  assert (H : (Nat.min (String.length "c3a5") (String.length "c3b6")
               <= String.length "c3a6")%nat) by (vm_compute; lia).
  split; [exact H|]. apply (distance_triangle "c3a5" "c3a6" "c3b6" H).
Defined.

(** Without that length condition the inequality fails: an empty middle
    string is at distance 0 from both ends. *)
Lemma distance_triangle_needs_length :
  ~ (forall a b c : string,
       (hamming_distance a c <= hamming_distance a b + hamming_distance b c)%nat).
Proof. intros H. specialize (H "0" "" "1"). vm_compute in H. lia. Qed.

(** ** Thresholds at the two ends *)

Lemma seeded_from_skip (T : Z) (groups todo : dict) (cs : dict) (P : gset string) :
  (forall k, In k (keys todo) -> k ∈ P) ->
  seeded_from T groups todo (cs, P) = (cs, P).
Proof.
  unfold seeded_from. induction todo as [|[F fp] todo IH]; intros H; [reflexivity|].
  cbn [fold_left]. unfold seeded_step at 2.
  assert (HF : in_set F P = true) by (apply in_set_true, H; now left).
  rewrite HF. apply IH. intros k Hk. apply H. now right.
Qed.

Lemma list_to_set_keys_In (d : dict) (k : string) :
  k ∈ (list_to_set (keys d) : gset string) <-> In k (keys d).
Proof. now rewrite elem_of_list_to_set, list_elem_of_In. Qed.

(** When no group other than the seed is merged by any scan, the pass
    seeds one cluster per group, in order. *)
Lemma seeded_from_apart (T : Z) (groups done todo : dict) :
  List.NoDup (keys groups) -> groups = done ++ todo ->
  (forall F G, In F (keys todo) -> In G (keys groups) -> F <> G ->
               (T < Z.of_nat (hamming_distance F G))%Z) ->
  seeded_from T groups todo (done, list_to_set (keys done))
  = (groups, list_to_set (keys groups)).
Proof.
  intros Hnd. revert done. induction todo as [|[F fp] todo IH]; intros done Hg Hfar.
  - rewrite app_nil_r in Hg. now subst.
  - unfold seeded_from. cbn [fold_left]. rewrite (seeded_step_spec T groups _ _ F fp Hnd).
    assert (Hfresh : ~ In F (keys done)).
    { subst groups. unfold keys in Hnd. rewrite map_app in Hnd.
      apply List.NoDup_remove_2 in Hnd. intros Hin. apply Hnd.
      apply in_or_app. now left. }
    assert (HF : in_set F (list_to_set (keys done)) = false)
      by (apply in_set_false; now rewrite list_to_set_keys_In).
    rewrite HF.
    assert (Hnone : List.filter (merges T F ({[F]} ∪ list_to_set (keys done))) groups = []).
    { apply filter_none. intros e He. destruct (merges T F _ e) eqn:Hm; [|reflexivity].
      apply merges_within in Hm. destruct Hm as [Hne [_ Hd]].
      assert (Hlt := Hfar F (fst e) (or_introl eq_refl) (in_map fst _ _ He)
                       (fun H => Hne (eq_sym H))).
      lia. }
    rewrite Hnone. change (paths_of []) with (@nil string). rewrite app_nil_r.
    assert (HP : list_to_set (keys []) ∪ ({[F]} ∪ list_to_set (keys done))
                 = (list_to_set (keys (done ++ [(F, fp)])) : gset string)).
    { apply set_eq. intros k. unfold keys. rewrite map_app.
      rewrite !elem_of_union, !elem_of_list_to_set, elem_of_app, elem_of_singleton.
      simpl. rewrite elem_of_nil, list_elem_of_singleton. tauto. }
    rewrite HP. apply (IH (done ++ [(F, fp)])).
    + rewrite <- app_assoc. exact Hg.
    + intros F' G HF' HG. apply Hfar. now right. exact HG.
Qed.

Lemma seeded_apart (T : Z) (groups : dict) :
  List.NoDup (keys groups) ->
  (forall F G, In F (keys groups) -> In G (keys groups) -> F <> G ->
               (T < Z.of_nat (hamming_distance F G))%Z) ->
  seeded T groups = groups
  /\ cluster T groups = (retained groups, list_to_set (keys groups)).
Proof.
  intros Hnd Hfar.
  pose proof (seeded_from_apart T groups [] groups Hnd eq_refl Hfar) as H.
  change (list_to_set (keys [])) with (∅ : gset string) in H.
  split.
  - unfold seeded. exact (f_equal fst H).
  - rewrite cluster_seeded. unfold seeded.
    f_equal; [exact (f_equal (fun st => retained (fst st)) H) | exact (f_equal snd H)].
Qed.

(** X4: When every two distinct fingerprints are farther apart than the
    threshold, nothing is merged: each group seeds its own cluster, the
    similar groups are the fingerprint groups of more than one path, and
    exactly the keys are marked. *)
Theorem far_apart_groups_stay_apart (T : Z) (groups : dict) :
  List.NoDup (keys groups) ->
  (forall F G, In F (keys groups) -> In G (keys groups) -> F <> G ->
               (T < Z.of_nat (hamming_distance F G))%Z) ->
  seeded T groups = groups
  /\ cluster T groups = (retained groups, list_to_set (keys groups)).
Proof. apply seeded_apart. Qed.

(** X5: A negative threshold merges nothing, and threshold 0 merges nothing
    among fingerprints of one length: the similar groups are then the
    groups of images with the very same fingerprint. *)
Theorem exact_thresholds_merge_nothing (T : Z) (groups : dict) :
  List.NoDup (keys groups) ->
  (T < 0)%Z
  \/ (T = 0%Z /\ forall F G, In F (keys groups) -> In G (keys groups) ->
                             String.length F = String.length G) ->
  fst (cluster T groups) = retained groups.
Proof.
  intros Hnd HT.
  assert (Hfar : forall F G, In F (keys groups) -> In G (keys groups) -> F <> G ->
                             (T < Z.of_nat (hamming_distance F G))%Z).
  { intros F G HF HG Hne. destruct HT as [HT|[-> Hlen]]; [lia|].
    destruct (hamming_distance F G) eqn:E; [|lia]. exfalso. apply Hne.
    apply prefix_same_length; [now apply Hlen|].
    apply hamming_distance_zero_prefix; [rewrite (Hlen F G HF HG); lia | assumption]. }
  destruct (seeded_apart T groups Hnd Hfar) as [_ Hc]. now rewrite Hc.
Qed.

Lemma seeded_one_cluster (T : Z) (F : string) (fp : list string) (rest : dict) :
  List.NoDup (keys ((F, fp) :: rest)) ->
  (forall G, In G (keys rest) -> (Z.of_nat (hamming_distance F G) <= T)%Z) ->
  seeded T ((F, fp) :: rest) = [(F, fp ++ paths_of rest)].
Proof.
  intros Hnd Hnear.
  assert (HF : in_set F ∅ = false) by (apply in_set_false; set_solver).
  assert (Hfresh : ~ In F (keys rest)) by (inversion Hnd; assumption).
  assert (Hall : List.filter (merges T F ({[F]} ∪ ∅)) ((F, fp) :: rest) = rest).
  { cbn [List.filter]. unfold merges at 1. cbn [fst].
    rewrite String.eqb_refl. cbn [negb andb].
    apply List.forallb_filter_id. apply forallb_forall. intros e He.
    apply merges_within. assert (HG : In (fst e) (keys rest)) by now apply in_map.
    split; [intros Heq; apply Hfresh; now rewrite <- Heq|].
    split; [|now apply Hnear].
    intros Hin. apply Hfresh. assert (fst e = F) by set_solver. congruence. }
  assert (Hstep : seeded_step T ((F, fp) :: rest) ([], ∅) (F, fp)
                  = ([(F, fp ++ paths_of rest)],
                     list_to_set (keys rest) ∪ ({[F]} ∪ ∅))).
  { rewrite (seeded_step_spec T _ [] ∅ F fp Hnd), HF, Hall. reflexivity. }
  assert (Hrest : seeded_from T ((F, fp) :: rest) rest
                    ([(F, fp ++ paths_of rest)], list_to_set (keys rest) ∪ ({[F]} ∪ ∅))
                  = ([(F, fp ++ paths_of rest)], list_to_set (keys rest) ∪ ({[F]} ∪ ∅))).
  { apply seeded_from_skip. intros k Hk. apply elem_of_union_l.
    now apply list_to_set_keys_In. }
  unfold seeded. unfold seeded_from at 1. cbn [fold_left].
  etransitivity; [|exact (f_equal fst Hrest)].
  unfold seeded_from. f_equal. f_equal. exact Hstep.
Qed.

(** X6: When every other fingerprint is within the threshold of the first
    one, the pass builds a single cluster holding every path, in
    enumeration order. *)
Theorem near_groups_form_one_cluster (T : Z) (F : string) (fp : list string) (rest : dict) :
  List.NoDup (keys ((F, fp) :: rest)) ->
  (forall G, In G (keys rest) -> (Z.of_nat (hamming_distance F G) <= T)%Z) ->
  seeded T ((F, fp) :: rest) = [(F, paths_of ((F, fp) :: rest))]
  /\ fst (cluster T ((F, fp) :: rest))
     = if (1 <? length (paths_of ((F, fp) :: rest)))%nat
       then [paths_of ((F, fp) :: rest)] else [].
Proof.
  intros Hnd Hnear. rewrite paths_of_cons. cbn [snd].
  pose proof (seeded_one_cluster T F fp rest Hnd Hnear) as Hs.
  split; [exact Hs|]. rewrite cluster_seeded, Hs. cbn [fst]. unfold retained.
  cbn [List.filter snd]. now destruct (1 <? length (fp ++ paths_of rest))%nat.
Qed.

(** X7: A threshold of at least the length of the first fingerprint puts
    every image with a fingerprint into one cluster. *)
Theorem threshold_of_fingerprint_length_merges_all (T : Z) (F : string)
    (fp : list string) (rest : dict) :
  List.NoDup (keys ((F, fp) :: rest)) ->
  (Z.of_nat (String.length F) <= T)%Z ->
  seeded T ((F, fp) :: rest) = [(F, paths_of ((F, fp) :: rest))].
Proof.
  intros Hnd HT. rewrite paths_of_cons. cbn [snd].
  apply seeded_one_cluster; [assumption|]. intros G _.
  pose proof (hamming_distance_le_length F G). lia.
Qed.

(** ** What a group holds *)

Lemma dict_get_append (h k v : string) (d : dict) :
  dict_get h (dict_append k v d)
  = if String.eqb k h then dict_get h d ++ [v] else dict_get h d.
Proof.
  induction d as [|[k' vs] d IH]; simpl.
  - now destruct (String.eqb k h).
  - destruct (String.eqb k' k) eqn:E; simpl.
    + apply String.eqb_eq in E. subst k'. now destruct (String.eqb k h).
    + destruct (String.eqb k' h) eqn:E'; [|exact IH].
      apply String.eqb_eq in E'. subst k'. rewrite String.eqb_sym, E. reflexivity.
Qed.

Lemma dict_get_In (h : string) (ps : list string) (d : dict) :
  List.NoDup (keys d) -> In (h, ps) d -> dict_get h d = ps.
Proof.
  induction d as [|[k vs] d IH]; intros Hnd Hin; [destruct Hin|].
  inversion Hnd as [|? ? Hfresh Hnd']; subst. simpl.
  destruct Hin as [Hin|Hin].
  - inversion Hin; subst. now rewrite String.eqb_refl.
  - destruct (String.eqb k h) eqn:E; [|now apply IH].
    apply String.eqb_eq in E. subst k. exfalso. apply Hfresh.
    change h with (fst (h, ps)). now apply in_map.
Qed.

Lemma dict_get_key (h : string) (d : dict) :
  In h (keys d) -> In (h, dict_get h d) d.
Proof.
  induction d as [|[k vs] d IH]; intros Hin; [destruct Hin|]. simpl.
  destruct (String.eqb k h) eqn:E.
  - apply String.eqb_eq in E. subst. now left.
  - right. apply IH. destruct Hin as [Hin|Hin]; [|assumption].
    simpl in Hin. apply String.eqb_neq in E. congruence.
Qed.

Section GroupContents.

Variable key : string -> option string.

Lemma group_fold_get (paths : list string) (d : dict) (h : string) :
  h <> EmptyString ->
  dict_get h (fold_left (group_add key) paths d) = dict_get h d ++ with_key key h paths.
Proof.
  intros Hh. revert d. induction paths as [|p paths IH]; intros d.
  - simpl. now rewrite app_nil_r.
  - cbn [fold_left]. rewrite IH. unfold with_key. cbn [List.filter]. unfold group_add.
    destruct (key p) as [k|] eqn:Hk; [|reflexivity].
    destruct (String.eqb k h) eqn:E.
    + apply String.eqb_eq in E. subst k. rewrite (truthy_Some h Hh), dict_get_append.
      rewrite String.eqb_refl, <- app_assoc. reflexivity.
    + destruct (truthy (Some k)); [|reflexivity]. now rewrite dict_get_append, E.
Qed.

Lemma key_values_In (paths : list string) (h : string) :
  In h (key_values key paths)
  <-> exists p, In p paths /\ key p = Some h /\ h <> EmptyString.
Proof.
  unfold key_values. rewrite in_flat_map. split.
  - intros [p [Hp Hin]]. exists p. destruct (key p) as [k|]; [|destruct Hin].
    destruct k as [|c k]; [destruct Hin|]. destruct Hin as [<-|[]]. repeat split; auto; discriminate.
  - intros [p [Hp [Hk Hh]]]. exists p. split; [assumption|]. rewrite Hk.
    rewrite (truthy_Some h Hh). now left.
Qed.

Lemma group_by_keys_In (paths : list string) (h : string) :
  In h (keys (group_by key paths))
  <-> exists p, In p paths /\ key p = Some h /\ h <> EmptyString.
Proof.
  unfold group_by. rewrite group_fold_keys. simpl.
  rewrite key_values_first_seen_In, key_values_In. simpl. tauto.
Qed.

Lemma group_by_member (paths : list string) (p h : string) :
  In p paths -> key p = Some h -> h <> EmptyString ->
  In (h, with_key key h paths) (group_by key paths)
  /\ In p (with_key key h paths).
Proof.
  intros Hp Hk Hh. split.
  - assert (Hin : In h (keys (group_by key paths)))
      by (apply group_by_keys_In; now exists p).
    apply dict_get_key in Hin. unfold group_by in Hin at 1.
    rewrite group_fold_get in Hin by assumption. exact Hin.
  - unfold with_key. apply filter_In. split; [assumption|].
    rewrite Hk. apply String.eqb_refl.
Qed.

(** X8: Every group holds exactly the paths that produced its key, in
    discovery order, and is never empty; every path that produced a
    usable key is in the group of that key. *)
Theorem group_by_collects (paths : list string) :
  (forall h ps, In (h, ps) (group_by key paths) ->
     h <> EmptyString /\ ps <> [] /\ ps = with_key key h paths)
  /\ (forall p h, In p paths -> key p = Some h -> h <> EmptyString ->
        In (h, with_key key h paths) (group_by key paths)
        /\ In p (with_key key h paths)).
Proof.
  split.
  - intros h ps Hin.
    assert (Hk : In h (keys (group_by key paths)))
      by (change h with (fst (h, ps)); now apply in_map).
    apply group_by_keys_In in Hk. destruct Hk as [p [_ [_ Hh]]].
    split; [exact Hh|]. split.
    + pose proof (group_by_nonempty key paths) as Hne. unfold nonempty_groups in Hne.
      rewrite List.Forall_forall in Hne. exact (Hne _ Hin).
    + rewrite <- (dict_get_In h ps _ (group_by_NoDup key paths) Hin).
      unfold group_by. now rewrite group_fold_get.
  - intros p h. apply group_by_member.
Qed.

End GroupContents.

(** ** The clusters as a partition *)

Lemma split_filter_perm (f g h : string * list string -> bool) (l : dict) :
  (forall e, In e l -> h e = f e || g e) ->
  (forall e, In e l -> f e && g e = false) ->
  Permutation (paths_of (List.filter h l))
              (paths_of (List.filter f l) ++ paths_of (List.filter g l)).
Proof.
  induction l as [|e l IH]; intros H1 H2; [constructor|].
  cbn [List.filter].
  assert (IH' := IH (fun x Hx => H1 x (or_intror Hx)) (fun x Hx => H2 x (or_intror Hx))).
  specialize (H1 e (or_introl eq_refl)). specialize (H2 e (or_introl eq_refl)).
  rewrite H1. destruct (f e), (g e); simpl in *; try discriminate;
    rewrite ?paths_of_cons.
  - rewrite <- app_assoc. now apply Permutation_app_head.
  - rewrite IH'. apply Permutation_app_swap_app.
  - exact IH'.
Qed.

Lemma covered_seed_perm (F : string) (fp : list string) (P : gset string) (groups : dict) :
  List.NoDup (keys groups) -> In (F, fp) groups -> F ∉ P ->
  Permutation (covered ({[F]} ∪ P) groups) (covered P groups ++ fp).
Proof.
  intros Hnd Hin HF. unfold covered.
  rewrite (split_filter_perm (fun e => in_set (fst e) P) (fun e => String.eqb (fst e) F)).
  - now rewrite (filter_key_unique F fp groups Hnd Hin).
  - intros e _. destruct (String.eqb (fst e) F) eqn:E.
    + apply String.eqb_eq in E. rewrite orb_true_r. apply in_set_true. set_solver.
    + apply String.eqb_neq in E. rewrite orb_false_r.
      destruct (in_set (fst e) P) eqn:E'.
      * apply in_set_true. apply in_set_true in E'. set_solver.
      * apply in_set_false. apply in_set_false in E'. set_solver.
  - intros e _. destruct (String.eqb (fst e) F) eqn:E; [|apply andb_false_r].
    apply String.eqb_eq in E. rewrite E, andb_true_r. now apply in_set_false.
Qed.

Lemma covered_merged_perm (T : Z) (F : string) (P : gset string) (groups : dict) :
  Permutation
    (covered (list_to_set (keys (List.filter (merges T F P) groups)) ∪ P) groups)
    (covered P groups ++ paths_of (List.filter (merges T F P) groups)).
Proof.
  unfold covered. apply split_filter_perm.
  - intros e He. pose proof (merged_keys T F P groups e He) as Hk.
    destruct (merges T F P e) eqn:Hm.
    + rewrite orb_true_r. apply in_set_true. apply elem_of_union_l. now apply Hk.
    + rewrite orb_false_r. destruct (in_set (fst e) P) eqn:E'.
      * apply in_set_true. apply in_set_true in E'. set_solver.
      * apply in_set_false. apply in_set_false in E'.
        intros Hin. apply elem_of_union in Hin. destruct Hin as [Hin|Hin]; [|contradiction].
        apply Hk in Hin. discriminate.
  - intros e _. destruct (merges T F P e) eqn:Hm; [|apply andb_false_r].
    apply merges_within in Hm. destruct Hm as [_ [Hp _]].
    apply in_set_false in Hp. now rewrite Hp.
Qed.

Lemma seeded_from_covered_perm (T : Z) (groups todo : dict) (cs : dict) (P : gset string) :
  List.NoDup (keys groups) -> incl todo groups ->
  Permutation (paths_of cs) (covered P groups) ->
  Permutation (paths_of (fst (seeded_from T groups todo (cs, P))))
              (covered (snd (seeded_from T groups todo (cs, P))) groups).
Proof.
  intros Hnd. unfold seeded_from. revert cs P.
  induction todo as [|[F fp] todo IH]; intros cs P Hincl Hcs; [assumption|].
  cbn [fold_left]. rewrite (seeded_step_spec T groups cs P F fp Hnd).
  assert (Hincl' : incl todo groups) by (intros x Hx; apply Hincl; now right).
  destruct (in_set F P) eqn:E; [now apply IH|].
  apply IH; [assumption|].
  rewrite paths_of_app, covered_merged_perm.
  rewrite (covered_seed_perm F fp P groups Hnd); [| apply Hincl; now left | now apply in_set_false].
  unfold paths_of at 2. cbn [map concat snd]. rewrite app_nil_r, Hcs.
  now rewrite app_assoc.
Qed.

Lemma seeded_from_marks (T : Z) (groups todo : dict) (cs : dict) (P : gset string) :
  List.NoDup (keys groups) -> incl todo groups ->
  (forall k, k ∈ P -> In k (keys groups)) ->
  forall k, k ∈ snd (seeded_from T groups todo (cs, P)) -> In k (keys groups).
Proof.
  intros Hnd. unfold seeded_from. revert cs P.
  induction todo as [|[F fp] todo IH]; intros cs P Hincl HP; [exact HP|].
  cbn [fold_left]. rewrite (seeded_step_spec T groups cs P F fp Hnd).
  assert (Hincl' : incl todo groups) by (intros x Hx; apply Hincl; now right).
  destruct (in_set F P); [now apply IH|].
  apply IH; [assumption|]. intros k Hk.
  apply elem_of_union in Hk. destruct Hk as [Hk|Hk].
  - apply list_to_set_keys_In in Hk. unfold keys in *. apply in_map_iff in Hk.
    destruct Hk as [e [<- He]]. apply filter_In in He. apply in_map. tauto.
  - apply elem_of_union in Hk. destruct Hk as [Hk|Hk]; [|now apply HP].
    apply elem_of_singleton in Hk. subst k.
    change F with (fst (F, fp)). apply in_map. apply Hincl. now left.
Qed.

Lemma seeded_perm (T : Z) (groups : dict) :
  List.NoDup (keys groups) ->
  Permutation (paths_of (seeded T groups)) (paths_of groups).
Proof.
  intros Hnd. unfold seeded.
  rewrite (seeded_from_covered_perm T groups groups [] ∅ Hnd (incl_refl _))
    by (rewrite covered_empty; constructor).
  rewrite covered_all; [reflexivity|].
  pose proof (seeded_from_erase T groups groups [] ∅) as He.
  pose proof (cluster_from_processed T groups groups [] ∅) as [_ Hk].
  change (retained []) with (@nil (list string)) in He. rewrite He in Hk. exact Hk.
Qed.

(** X9: The clusters partition the fingerprint groups: the paths of all
    clusters, kept or not, are the paths of the groups, each as often as
    there; every cluster begins with the paths of its seed; and the marked
    fingerprints are exactly the keys. *)
Theorem clusters_partition_groups (T : Z) (groups : dict) :
  List.NoDup (keys groups) ->
  Permutation (paths_of (seeded T groups)) (paths_of groups)
  /\ Forall (cluster_shape T groups) (seeded T groups)
  /\ snd (cluster T groups) = list_to_set (keys groups).
Proof.
  intros Hnd. split; [now apply seeded_perm|]. split; [now apply seeded_shape|].
  apply set_eq. intros k. rewrite list_to_set_keys_In. split.
  - rewrite cluster_seeded. cbn [snd].
    apply (seeded_from_marks T groups groups [] ∅ Hnd (incl_refl _)). set_solver.
  - intros Hk. unfold cluster. now apply cluster_from_processed.
Qed.

Lemma dict_append_perm (k v : string) (d : dict) :
  Permutation (paths_of (dict_append k v d)) (v :: paths_of d).
Proof.
  induction d as [|[k' vs] d IH]; simpl; [reflexivity|].
  destruct (String.eqb k' k); rewrite !paths_of_cons; cbn [snd].
  - rewrite <- app_assoc. simpl. symmetry. apply Permutation_middle.
  - rewrite IH. symmetry. apply Permutation_middle.
Qed.

Lemma group_by_perm (key : string -> option string) (paths : list string) :
  Permutation (paths_of (group_by key paths)) (keyed key paths).
Proof.
  unfold group_by.
  assert (H : forall d, Permutation (paths_of (fold_left (group_add key) paths d))
                          (paths_of d ++ keyed key paths)).
  { induction paths as [|p paths IH]; intros d.
    - simpl. now rewrite app_nil_r.
    - cbn [fold_left]. rewrite IH. unfold keyed. cbn [List.filter]. unfold group_add.
      destruct (key p) as [h|]; [|reflexivity].
      destruct (truthy (Some h)); [|reflexivity].
      rewrite dict_append_perm. simpl. apply Permutation_middle. }
  apply (H []).
Qed.

Lemma retained_sublist (cs : dict) : sublist (concat (retained cs)) (paths_of cs).
Proof.
  unfold retained, paths_of. induction cs as [|c cs IH]; [constructor|].
  cbn [List.filter map concat]. destruct (1 <? length (snd c))%nat.
  - cbn [map concat]. now apply sublist_app.
  - now apply sublist_inserts_l.
Qed.

Lemma first_seen_sublist (key : string -> option string) (seen paths : list string) :
  sublist (first_seen key seen paths) paths.
Proof.
  revert seen. induction paths as [|p paths IH]; intros seen; simpl; [constructor|].
  destruct (key p) as [h|]; [|now apply sublist_cons].
  destruct (truthy (Some h)); [|now apply sublist_cons].
  destruct (mem h seen); [now apply sublist_cons | now apply sublist_skip].
Qed.

Lemma filter_sublist {A : Type} (f : A -> bool) (l : list A) : sublist (List.filter f l) l.
Proof.
  induction l as [|x l IH]; simpl; [constructor|].
  destruct (f x); [now apply sublist_skip | now apply sublist_cons].
Qed.

Lemma sublist_ListNoDup {A : Type} (l1 l2 : list A) :
  sublist l1 l2 -> List.NoDup l2 -> List.NoDup l1.
Proof.
  intros Hs Hnd. apply NoDup_ListNoDup. apply NoDup_ListNoDup in Hnd.
  eapply sublist_NoDup; eassumption.
Qed.

Lemma retained_sizes (cs : dict) : Forall (fun g => (2 <= length g)%nat) (retained cs).
Proof.
  apply List.Forall_forall. intros g Hg. apply retained_In in Hg.
  destruct Hg as [_ [_ H]]. lia.
Qed.

Lemma concat_length_lower {A : Type} (n : nat) (L : list (list A)) :
  Forall (fun g => (n <= length g)%nat) L -> (n * length L <= length (concat L))%nat.
Proof.
  induction 1 as [|g L Hg _ IH]; simpl; [lia|]. rewrite length_app. lia.
Qed.

Section Disjoint.

Variable read_file : string -> result bytes.
Variable md5_hexdigest : bytes -> string.
Variable image_phash : string -> result string.

Local Abbreviation file_md5 := (calculate_file_md5 read_file md5_hexdigest).
Local Abbreviation image_hash := (calculate_image_hash image_phash).
Local Abbreviation organize := (organize_icons read_file md5_hexdigest image_phash).

(** X10: When the scan yields every path once, no path is in two similar
    groups or twice in one; every similar group has at least two paths,
    all of them representatives; so there are at most half as many groups
    as representatives. *)
Theorem similar_groups_are_disjoint (walk : list (string * list string))
    (output_dir : string) (T : Z) (fs0 : gmap string bytes) :
  List.NoDup (scan walk) ->
  exists r,
    organize walk output_dir T fs0 = Ok r
    /\ List.NoDup (concat (similar_groups r))
    /\ Forall (fun g => (2 <= length g)%nat) (similar_groups r)
    /\ incl (concat (similar_groups r)) (unique_images r)
    /\ (2 * length (similar_groups r) <= length (unique_images r))%nat.
Proof.
  intros Hnd.
  destruct (organize_icons_run read_file md5_hexdigest image_phash walk output_dir T fs0)
    as [fs2 [Hrun _]].
  eexists. split; [exact Hrun|]. cbn [similar_groups unique_images].
  set (uniq := first_seen file_md5 [] (scan walk)).
  set (phashes := group_by image_hash uniq).
  assert (Hk : List.NoDup (keys phashes)) by apply group_by_NoDup.
  assert (Hu : List.NoDup uniq)
    by (apply (sublist_ListNoDup _ _ (first_seen_sublist file_md5 [] (scan walk)) Hnd)).
  assert (Hp : List.NoDup (paths_of phashes)).
  { apply (Permutation.Permutation_NoDup (Permutation_sym (group_by_perm image_hash uniq))).
    apply (sublist_ListNoDup _ _ (filter_sublist _ uniq) Hu). }
  assert (Hs : List.NoDup (paths_of (seeded T phashes)))
    by (apply (Permutation.Permutation_NoDup (Permutation_sym (seeded_perm T phashes Hk)) Hp)).
  assert (Hincl : incl (concat (retained (seeded T phashes))) uniq).
  { intros p Hin.
    assert (Hin' : In p (paths_of phashes)).
    { apply (Permutation_in p (seeded_perm T phashes Hk)).
      apply list_elem_of_In.
      eapply elem_of_sublist; [apply list_elem_of_In; exact Hin | apply retained_sublist]. }
    apply paths_of_In in Hin'. destruct Hin' as [h [ps [H1 H2]]].
    now apply (group_by_In image_hash uniq h p ps H1 H2). }
  split; [exact (sublist_ListNoDup _ _ (retained_sublist _) Hs)|].
  split; [apply retained_sizes|]. split; [exact Hincl|].
  pose proof (concat_length_lower 2 _ (retained_sizes (seeded T phashes))) as H2.
  assert (H3 : (length (concat (retained (seeded T phashes))) <= length uniq)%nat).
  { apply NoDup_incl_length; [|exact Hincl].
    exact (sublist_ListNoDup _ _ (retained_sublist _) Hs). }
  lia.
Qed.

End Disjoint.

(** ** What the representatives stand for *)

Section Coverage.

Variable key : string -> option string.

Lemma first_seen_covers (paths seen : list string) (p h : string) :
  In p paths -> key p = Some h -> h <> EmptyString ->
  In h seen \/ exists rep, In rep (first_seen key seen paths) /\ key rep = Some h.
Proof.
  intros Hp Hk Hh. revert seen. induction paths as [|q paths IH]; intros seen;
    [destruct Hp|].
  simpl. destruct Hp as [->|Hp].
  - rewrite Hk, (truthy_Some h Hh). destruct (mem h seen) eqn:Hm.
    + left. now apply mem_In.
    + right. exists p. split; [now left | assumption].
  - destruct (key q) as [hq|] eqn:Hq; [|now apply IH].
    destruct (truthy (Some hq)); [|now apply IH].
    destruct (mem hq seen); [now apply IH|].
    destruct (IH Hp (hq :: seen)) as [[->|Hin]|[rep [Hrep Hkr]]].
    + right. exists q. split; [now left | assumption].
    + now left.
    + right. exists rep. split; [now right | assumption].
Qed.

Lemma first_seen_keys (paths seen : list string) :
  map key (first_seen key seen paths)
  = map Some (key_values key (first_seen key seen paths)).
Proof.
  revert seen. induction paths as [|p paths IH]; intros seen; simpl; [reflexivity|].
  destruct (key p) as [h|] eqn:Hk; [|apply IH].
  destruct (truthy (Some h)) eqn:Ht; [|apply IH].
  destruct (mem h seen); [apply IH|].
  simpl. rewrite Hk, Ht. simpl. now rewrite IH.
Qed.

Lemma first_seen_distinct (paths : list string) :
  List.NoDup (map key (first_seen key [] paths)).
Proof.
  rewrite first_seen_keys. apply NoDup_map_NoDup_ForallPairs.
  - intros x y _ _ H. now inversion H.
  - apply (first_seen_fresh key paths []). constructor.
Qed.

Lemma key_values_length (paths : list string) :
  length (key_values key paths) = length (keyed key paths).
Proof.
  unfold key_values, keyed. induction paths as [|p paths IH]; [reflexivity|].
  simpl. destruct (key p) as [h|].
  - destruct (truthy (Some h)); simpl; now rewrite IH.
  - replace (truthy None) with false by reflexivity. exact IH.
Qed.

Lemma first_seen_all (paths seen : list string) :
  List.NoDup (key_values key paths) ->
  (forall h, In h (key_values key paths) -> ~ In h seen) ->
  first_seen key seen paths = keyed key paths.
Proof.
  revert seen. unfold keyed. induction paths as [|p paths IH]; intros seen Hnd Hs;
    [reflexivity|].
  simpl in *. destruct (key p) as [h|] eqn:Hk.
  - destruct (truthy (Some h)) eqn:Ht.
    + simpl in Hnd, Hs. inversion Hnd as [|? ? Hfresh Hnd']; subst.
      assert (Hm : mem h seen = false) by (apply mem_false, Hs; now left).
      rewrite Hm. f_equal. apply IH; [assumption|].
      intros h' Hin [<-|Hin']; [contradiction|]. apply (Hs h'); [now right | assumption].
    + now apply IH.
  - replace (truthy None) with false by reflexivity. now apply IH.
Qed.

End Coverage.

Lemma nodup_length_le (l : list string) :
  (length (nodup String.string_dec l) <= length l)%nat.
Proof.
  induction l as [|x l IH]; [simpl; lia|]. simpl.
  destruct (in_dec String.string_dec x l); simpl; lia.
Qed.

Lemma nodup_length_eq (l : list string) :
  length (nodup String.string_dec l) = length l <-> List.NoDup l.
Proof.
  induction l as [|x l IH]; [split; [constructor | reflexivity]|]. simpl.
  pose proof (nodup_length_le l) as Hle.
  destruct (in_dec String.string_dec x l) as [Hin|Hout].
  - split; [lia|]. intros H. inversion H. contradiction.
  - simpl. split.
    + intros H. constructor; [assumption|]. apply IH. lia.
    + intros H. inversion H; subst. f_equal. now apply IH.
Qed.

Section Digests.

Variable read_file : string -> result bytes.
Variable md5_hexdigest : bytes -> string.

Local Abbreviation file_md5 := (calculate_file_md5 read_file md5_hexdigest).

(** X11: The representatives form a subsequence of the discovered images with
    pairwise different digests, and every image that has a digest shares
    it with a representative; the count of duplicates is not negative and
    accounts for every other image that has a digest. *)
Theorem representatives_cover_digests (imgs : list string) :
  exists uniq dups,
    dedup (group_by file_md5 imgs) = Ok (uniq, dups)
    /\ sublist uniq imgs
    /\ List.NoDup (map file_md5 uniq)
    /\ (forall p, In p imgs -> truthy (file_md5 p) = true ->
          exists rep, In rep uniq /\ file_md5 rep = file_md5 p)
    /\ (0 <= dups)%Z
    /\ (dups + Z.of_nat (length uniq))%Z = Z.of_nat (length (keyed file_md5 imgs)).
Proof.
  eexists _, _. split; [apply dedup_group_by|].
  split; [apply first_seen_sublist|]. split; [apply first_seen_distinct|].
  assert (Hlen : length (first_seen file_md5 [] imgs)
                 = length (nodup String.string_dec (key_values file_md5 imgs))).
  { rewrite <- distinct_values_count, <- group_by_heads.
    pose proof (group_by_nonempty file_md5 imgs) as Hm. revert Hm.
    generalize (group_by file_md5 imgs). intros d Hd. unfold heads.
    induction Hd as [|[k vs] d Hv _ IH]; [reflexivity|]. simpl in *.
    destruct vs; [congruence|]. simpl. now rewrite IH. }
  pose proof (nodup_length_le (key_values file_md5 imgs)) as Hle.
  rewrite key_values_length in Hle.
  split; [|split; [lia | rewrite Hlen; lia]].
  intros p Hp Ht. destruct (file_md5 p) as [h|] eqn:Hk; [|discriminate].
  assert (Hh : h <> EmptyString) by (intros ->; discriminate).
  destruct (first_seen_covers file_md5 imgs [] p h Hp Hk Hh) as [[]|[rep [H1 H2]]].
  exists rep. now rewrite H2.
Qed.

(** X12: No duplicate is counted exactly when the digests of the discovered
    images are pairwise different, and then every image that has a digest
    is its own representative. *)
Theorem no_duplicates_iff_distinct_digests (imgs : list string) :
  exists uniq dups,
    dedup (group_by file_md5 imgs) = Ok (uniq, dups)
    /\ (dups = 0%Z <-> List.NoDup (key_values file_md5 imgs))
    /\ (dups = 0%Z -> uniq = keyed file_md5 imgs).
Proof.
  eexists _, _. split; [apply dedup_group_by|].
  pose proof (nodup_length_le (key_values file_md5 imgs)) as Hle.
  pose proof (nodup_length_eq (key_values file_md5 imgs)) as Heq.
  rewrite key_values_length in Hle, Heq.
  assert (Hiff : (Z.of_nat (length (keyed file_md5 imgs))
                  - Z.of_nat (length (nodup String.string_dec (key_values file_md5 imgs))))%Z
                 = 0%Z <-> List.NoDup (key_values file_md5 imgs)).
  { rewrite <- Heq. lia. }
  split; [exact Hiff|]. intros H0. apply first_seen_all; [now apply Hiff|].
  intros h _ [].
Qed.

End Digests.

(** ** Paths and names *)

Lemma str_app_cons (x : ascii) (a b : string) : String x a +:+ b = String x (a +:+ b).
Proof. reflexivity. Qed.

Lemma str_app_nil_l (b : string) : EmptyString +:+ b = b.
Proof. reflexivity. Qed.

Ltac str_simpl := rewrite ?str_app_cons, ?str_app_nil_l; simpl.

Lemma str_app_assoc (a b c : string) : (a +:+ b) +:+ c = a +:+ (b +:+ c).
Proof. induction a as [|x a IH]; str_simpl; [reflexivity | now rewrite IH]. Qed.

Lemma str_app_nil_r (a : string) : a +:+ EmptyString = a.
Proof. induction a as [|x a IH]; str_simpl; [reflexivity | now rewrite IH]. Qed.

Lemma str_app_length (a b : string) :
  String.length (a +:+ b) = (String.length a + String.length b)%nat.
Proof. induction a as [|x a IH]; str_simpl; [reflexivity | now rewrite IH]. Qed.

Lemma str_app_inv_head (a b c : string) : a +:+ b = a +:+ c -> b = c.
Proof.
  induction a as [|x a IH]; str_simpl; intros H; [assumption | inversion H; auto].
Qed.

Lemma has_char_app (c : ascii) (a b : string) :
  has_char c (a +:+ b) = has_char c a || has_char c b.
Proof.
  induction a as [|x a IH]; str_simpl; [reflexivity|]. now rewrite IH, orb_assoc.
Qed.

Lemma rsplit_None (c : ascii) (s : string) :
  Path.rsplit c s = None <-> has_char c s = false.
Proof.
  induction s as [|x s IH]; simpl; [tauto|].
  destruct (Path.rsplit c s) as [[b a]|].
  - split; [discriminate|]. intros H. apply orb_false_elim in H.
    destruct H as [_ H]. apply IH in H. discriminate.
  - assert (Hs : has_char c s = false) by now apply IH.
    rewrite Hs, orb_false_r. destruct (Ascii.eqb x c); split; congruence.
Qed.

Lemma rsplit_Some (c : ascii) (s b a : string) :
  Path.rsplit c s = Some (b, a) -> s = b +:+ String c a /\ has_char c a = false.
Proof.
  revert b. induction s as [|x s IH]; intros b; simpl; [discriminate|].
  destruct (Path.rsplit c s) as [[b' a']|] eqn:E.
  - intros H. inversion H; subst. destruct (IH b' eq_refl) as [-> Ha].
    split; [reflexivity | assumption].
  - destruct (Ascii.eqb x c) eqn:Ex; [|discriminate].
    intros H. inversion H; subst. apply Ascii.eqb_eq in Ex. subst x.
    split; [reflexivity | now apply rsplit_None].
Qed.

Lemma rsplit_app (c : ascii) (b a : string) :
  has_char c a = false -> Path.rsplit c (b +:+ String c a) = Some (b, a).
Proof.
  intros Ha. induction b as [|x b IH]; str_simpl.
  - apply rsplit_None in Ha. now rewrite Ha, Ascii.eqb_refl.
  - now rewrite IH.
Qed.

Lemma all_dots_app (a b : string) :
  Path.all_dots (a +:+ b) = Path.all_dots a && Path.all_dots b.
Proof.
  induction a as [|x a IH]; str_simpl; [reflexivity|]. now rewrite IH, andb_assoc.
Qed.

Lemma basename_no_slash (p : string) : has_char "/" (Path.basename p) = false.
Proof.
  unfold Path.basename. destruct (Path.rsplit "/" p) as [[b a]|] eqn:E.
  - now apply rsplit_Some in E.
  - now apply rsplit_None.
Qed.

Lemma ends_with_slash_split (d : string) :
  Path.ends_with_slash d = true -> exists q, d = q +:+ "/".
Proof.
  induction d as [|x d IH]; [discriminate|]. cbn [Path.ends_with_slash].
  destruct d as [|y d].
  - intros H. apply Ascii.eqb_eq in H. subst. now exists EmptyString.
  - intros H. destruct (IH H) as [q Hq]. exists (String x q).
    now rewrite str_app_cons, <- Hq.
Qed.

Lemma join_prefix_cases (d : string) :
  join_prefix d = EmptyString \/ exists q, join_prefix d = q +:+ "/".
Proof.
  unfold join_prefix. destruct d as [|x d]; [now left|]. right.
  destruct (Path.ends_with_slash (String x d)) eqn:E.
  - now apply ends_with_slash_split.
  - now exists (String x d).
Qed.

Lemma join_relative (d f : string) :
  has_char "/" f = false -> Path.join d f = join_prefix d +:+ f.
Proof.
  intros Hf. unfold join_prefix. destruct f as [|x r].
  - destruct d as [|y d]; [reflexivity|]. unfold Path.join.
    destruct (Path.ends_with_slash (String y d)); [reflexivity|].
    now rewrite str_app_assoc.
  - simpl in Hf. apply orb_false_elim in Hf. destruct Hf as [Hx _].
    destruct x as [b0 b1 b2 b3 b4 b5 b6 b7].
    destruct b0, b1, b2, b3, b4, b5, b6, b7; try discriminate Hx;
      (destruct d as [|y d]; [reflexivity|]; unfold Path.join;
       destruct (Path.ends_with_slash (String y d)); [reflexivity|];
       now rewrite str_app_assoc).
Qed.

Lemma join_cases (d f : string) :
  has_char "/" f = false ->
  (Path.join d f = f /\ Path.rsplit "/" (Path.join d f) = None)
  \/ exists q, Path.rsplit "/" (Path.join d f) = Some (q, f).
Proof.
  intros Hf. rewrite (join_relative d f Hf).
  destruct (join_prefix_cases d) as [->|[q ->]].
  - left. rewrite str_app_nil_l. split; [reflexivity|]. now apply rsplit_None.
  - right. exists q. rewrite str_app_assoc. now apply rsplit_app.
Qed.

Lemma splitext_name (f : string) :
  has_char "/" f = false ->
  Path.splitext f
  = match Path.rsplit "." f with
    | Some (b, e) => if Path.all_dots b then (f, EmptyString) else (b, String "." e)
    | None => (f, EmptyString)
    end.
Proof.
  intros Hf. unfold Path.splitext. apply rsplit_None in Hf. rewrite Hf.
  destruct (Path.rsplit "." f) as [[b e]|]; reflexivity.
Qed.

Lemma splitext_join (d f : string) :
  has_char "/" f = false ->
  snd (Path.splitext (Path.join d f)) = snd (Path.splitext f).
Proof.
  intros Hf. destruct (join_cases d f Hf) as [[-> _]|[q Hq]]; [reflexivity|].
  rewrite (splitext_name f Hf). unfold Path.splitext. rewrite Hq.
  destruct (Path.rsplit "." f) as [[b e]|]; [|reflexivity].
  destruct (Path.all_dots b); reflexivity.
Qed.

Lemma digits_no_dot (d : Decimal.uint) : has_char "." (NilEmpty.string_of_uint d) = false.
Proof. induction d; simpl; auto. Qed.

Lemma digits_no_slash (d : Decimal.uint) : has_char "/" (NilEmpty.string_of_uint d) = false.
Proof. induction d; simpl; auto. Qed.

Lemma str_of_nat_plain (n : nat) :
  has_char "." (str_of_nat n) = false /\ has_char "/" (str_of_nat n) = false.
Proof.
  unfold str_of_nat, NilZero.string_of_uint.
  destruct (Nat.to_uint n); split;
    first [reflexivity | apply (digits_no_dot (_ _)) | apply (digits_no_slash (_ _))].
Qed.

(** The three outcomes of [splitext] on a file name. *)
Lemma splitext_cases (f : string) :
  has_char "/" f = false ->
  (Path.rsplit "." f = None /\ Path.splitext f = (f, EmptyString))
  \/ (exists b e, Path.rsplit "." f = Some (b, e) /\ Path.all_dots b = true
                  /\ Path.splitext f = (f, EmptyString))
  \/ (exists b e, Path.rsplit "." f = Some (b, e) /\ Path.all_dots b = false
                  /\ Path.splitext f = (b, String "." e)).
Proof.
  intros Hf. rewrite (splitext_name f Hf).
  destruct (Path.rsplit "." f) as [[b e]|] eqn:E; [|now left]. right.
  destruct (Path.all_dots b) eqn:Ed; [left | right]; exists b, e; auto.
Qed.

Lemma suffixed_spec (f : string) (n : nat) :
  has_char "/" f = false ->
  has_char "/" (suffixed f n) = false
  /\ snd (Path.splitext (suffixed f n)) = snd (Path.splitext f)
  /\ String.length (suffixed f n)
     = (String.length f + 1 + String.length (str_of_nat n))%nat.
Proof.
  intros Hf. destruct (str_of_nat_plain n) as [Hdot Hslash].
  set (tag := "_" +:+ str_of_nat n).
  assert (Htag_dot : has_char "." tag = false) by (unfold tag; simpl; exact Hdot).
  assert (Htag_slash : has_char "/" tag = false) by (unfold tag; simpl; exact Hslash).
  assert (Htag_len : String.length tag = (1 + String.length (str_of_nat n))%nat)
    by reflexivity.
  assert (Htag_dots : Path.all_dots tag = false) by reflexivity.
  unfold suffixed.
  destruct (splitext_cases f Hf) as [[Hr ->]|[[b [e [Hr [Hd ->]]]]|[b [e [Hr [Hd ->]]]]]].
  - (* no dot in the name *)
    change (f +:+ "_" +:+ str_of_nat n +:+ EmptyString) with (f +:+ (tag +:+ EmptyString)).
    rewrite str_app_nil_r.
    assert (Hs : has_char "/" (f +:+ tag) = false) by now rewrite has_char_app, Hf, Htag_slash.
    split; [exact Hs|]. split; [|rewrite str_app_length; lia].
    rewrite (splitext_name _ Hs).
    assert (Hn : Path.rsplit "." (f +:+ tag) = None).
    { apply rsplit_None. apply rsplit_None in Hr. now rewrite has_char_app, Hr, Htag_dot. }
    now rewrite Hn.
  - (* only dots before the last dot *)
    change (f +:+ "_" +:+ str_of_nat n +:+ EmptyString) with (f +:+ (tag +:+ EmptyString)).
    rewrite str_app_nil_r.
    assert (Hs : has_char "/" (f +:+ tag) = false) by now rewrite has_char_app, Hf, Htag_slash.
    split; [exact Hs|]. split; [|rewrite str_app_length; lia].
    rewrite (splitext_name _ Hs).
    destruct (rsplit_Some _ _ _ _ Hr) as [Heq He].
    assert (Hn : Path.rsplit "." (f +:+ tag) = Some (b, e +:+ tag)).
    { rewrite Heq, str_app_assoc. change (String "." e +:+ tag) with (String "." (e +:+ tag)).
      apply rsplit_app. now rewrite has_char_app, He, Htag_dot. }
    now rewrite Hn, Hd.
  - (* a proper extension *)
    change (b +:+ "_" +:+ str_of_nat n +:+ String "." e)
      with (b +:+ (tag +:+ String "." e)).
    destruct (rsplit_Some _ _ _ _ Hr) as [Heq He].
    assert (Hfb : has_char "/" b = false /\ has_char "/" e = false).
    { rewrite Heq, has_char_app in Hf. simpl in Hf. apply orb_false_elim in Hf. tauto. }
    destruct Hfb as [Hb Hes].
    assert (Hs : has_char "/" (b +:+ (tag +:+ String "." e)) = false).
    { rewrite !has_char_app, Hb, Htag_slash. simpl. exact Hes. }
    split; [exact Hs|]. split.
    + rewrite (splitext_name _ Hs).
      assert (Hn : Path.rsplit "." (b +:+ (tag +:+ String "." e)) = Some (b +:+ tag, e)).
      { rewrite <- str_app_assoc. now apply rsplit_app. }
      rewrite Hn, all_dots_app, Htag_dots, andb_false_r. reflexivity.
    + rewrite Heq, !str_app_length. cbn [String.length]. lia.
Qed.

Lemma basename_join (dir f : string) :
  has_char "/" f = false -> Path.basename (Path.join dir f) = f.
Proof.
  intros Hf. unfold Path.basename. destruct (join_cases dir f Hf) as [[Hj ->]|[q ->]];
    [exact Hj | reflexivity].
Qed.

Lemma is_image_file_join (dir f : string) :
  has_char "/" f = false -> is_image_file (Path.join dir f) = is_image_file f.
Proof.
  intros Hf. unfold is_image_file. pose proof (splitext_join dir f Hf) as H.
  destruct (Path.splitext (Path.join dir f)) as [r1 e1].
  destruct (Path.splitext f) as [r2 e2]. simpl in H. now subst.
Qed.

(** X14: A file name taken from a joined path is the name that was joined, and
    whether the path is an image file depends on that name alone, not on
    the directory. *)
Theorem joined_name_round_trip (dir f : string) :
  has_char "/" f = false ->
  Path.basename (Path.join dir f) = f
  /\ is_image_file (Path.join dir f) = is_image_file f.
Proof.
  intros Hf. split; [now apply basename_join | now apply is_image_file_join].
Qed.

(** X17: The name given to a copy on a collision keeps the extension of the
    original name, so it is an image file whenever the original is; it is
    longer than the original name, hence a different destination. *)
Theorem renamed_copy_keeps_extension (dir f : string) (n : nat) :
  has_char "/" f = false ->
  snd (Path.splitext (suffixed f n)) = snd (Path.splitext f)
  /\ is_image_file (suffixed f n) = is_image_file f
  /\ suffixed f n <> f
  /\ Path.join dir (suffixed f n) <> Path.join dir f.
Proof.
  intros Hf. destruct (suffixed_spec f n Hf) as [Hs [Hext Hlen]].
  split; [exact Hext|]. split; [|split].
  - unfold is_image_file.
    destruct (Path.splitext (suffixed f n)) as [r1 e1].
    destruct (Path.splitext f) as [r2 e2]. simpl in Hext. now subst.
  - intros Heq. rewrite Heq in Hlen. lia.
  - rewrite (join_relative dir _ Hs), (join_relative dir f Hf). intros Heq.
    apply str_app_inv_head in Heq. rewrite Heq in Hlen. lia.
Qed.

(** ** Copying *)

Lemma destination_fresh (dir p : string) (n : nat) (fs : gmap string bytes) :
  fs !! Path.join dir (Path.basename p) = None ->
  destination dir p n fs = Path.join dir (Path.basename p).
Proof.
  intros H. unfold destination, path_exists. rewrite H.
  rewrite bool_decide_eq_false_2; [reflexivity|]. intros [c Hc]. discriminate.
Qed.

Lemma destination_taken (dir p : string) (n : nat) (fs : gmap string bytes) :
  is_Some (fs !! Path.join dir (Path.basename p)) ->
  destination dir p n fs = Path.join dir (suffixed (Path.basename p) n).
Proof.
  intros H. unfold destination, path_exists. now rewrite bool_decide_eq_true_2.
Qed.

Lemma join_name_inj (dir f g : string) :
  has_char "/" f = false -> has_char "/" g = false ->
  Path.join dir f = Path.join dir g -> f = g.
Proof.
  intros Hf Hg. rewrite (join_relative dir f Hf), (join_relative dir g Hg).
  apply str_app_inv_head.
Qed.

Section Copying.

Variable read_file : string -> result bytes.

Local Abbreviation readable := (readable read_file).

Lemma member_step_ok (dir p : string) (fs fs' : gmap string bytes) (j j' : nat) :
  member_step read_file dir (fs, j) p = Ok (fs', j') ->
  exists c, read_file p = Ok c /\ fs' = <[destination dir p j fs := c]> fs /\ j' = S j.
Proof.
  unfold member_step, copy2. destruct (read_file p) as [c|e]; [|discriminate].
  cbn [bind]. intros H. inversion H. now exists c.
Qed.

Lemma member_loop_effect (dir : string) (group : list string) (fs fs' : gmap string bytes)
    (j j' : nat) :
  for_each (member_step read_file dir) group (fs, j) = Ok (fs', j') ->
  (forall path, is_Some (fs !! path) -> is_Some (fs' !! path))
  /\ (forall path c, fs' !! path = Some c ->
        fs !! path = Some c \/ exists p, In p group /\ read_file p = Ok c)
  /\ (size fs' <= size fs + length group)%nat.
Proof.
  revert fs j. induction group as [|p group IH]; intros fs j H.
  - simpl in H. inversion H; subst. split; [auto|]. split; [auto|]. simpl. lia.
  - cbn [for_each] in H.
    destruct (member_step read_file dir (fs, j) p) as [[fs1 j1]|e] eqn:E; [|discriminate].
    cbn [bind] in H. apply member_step_ok in E. destruct E as [c [Hc [-> ->]]].
    destruct (IH _ _ H) as [H1 [H2 H3]]. split; [|split].
    + intros path Hs. apply H1. rewrite lookup_insert. case_decide; [eauto | assumption].
    + intros path c' Hp. destruct (H2 path c' Hp) as [Hl|[q [Hq Hr]]].
      * rewrite lookup_insert in Hl. case_decide.
        -- inversion Hl; subst. right. exists p. split; [now left | assumption].
        -- now left.
      * right. exists q. split; [now right | assumption].
    + pose proof (map_size_insert (destination dir p j fs) c fs) as Hsz.
      destruct (fs !! destination dir p j fs); unfold id in Hsz; cbn [length]; lia.
Qed.

Lemma groups_loop_effect (dir : string) (similar : list (list string))
    (fs fs' : gmap string bytes) (i i' : nat) :
  for_each (groups_step read_file dir) similar (fs, i) = Ok (fs', i') ->
  (forall path, is_Some (fs !! path) -> is_Some (fs' !! path))
  /\ (forall path c, fs' !! path = Some c ->
        fs !! path = Some c \/ exists p, In p (concat similar) /\ read_file p = Ok c)
  /\ (size fs' <= size fs + length (concat similar))%nat.
Proof.
  revert fs i. induction similar as [|g similar IH]; intros fs i H.
  - simpl in H. inversion H; subst. split; [auto|]. split; [auto|]. simpl. lia.
  - cbn [for_each groups_step] in H. unfold copy_group in H.
    destruct (for_each (member_step read_file
                          (Path.join dir ("group_" +:+ str_of_nat (i + 1)))) g (fs, 0%nat))
      as [[fs1 j1]|e] eqn:E; [|discriminate].
    cbn [bind] in H.
    destruct (member_loop_effect _ _ _ _ _ _ E) as [G1 [G2 G3]].
    destruct (IH _ _ H) as [H1 [H2 H3]]. cbn [concat]. split; [|split].
    + intros path Hs. apply H1, G1, Hs.
    + intros path c Hp. destruct (H2 path c Hp) as [Hl|[q [Hq Hr]]].
      * destruct (G2 path c Hl) as [Hl'|[q [Hq Hr]]]; [now left|].
        right. exists q. split; [apply in_or_app; now left | assumption].
      * right. exists q. split; [apply in_or_app; now right | assumption].
    + rewrite length_app. lia.
Qed.

(** X18: In a directory that holds none of their names, members with pairwise
    different file names are each copied under their own name, and no
    other path changes. *)
Theorem distinct_names_copied_verbatim (dir : string) (group : list string)
    (fs : gmap string bytes) :
  Forall readable group ->
  List.NoDup (map Path.basename group) ->
  (forall p, In p group -> fs !! Path.join dir (Path.basename p) = None) ->
  exists fs',
    copy_group read_file dir group fs = Ok fs'
    /\ (forall p, In p group ->
          exists c, read_file p = Ok c
                    /\ fs' !! Path.join dir (Path.basename p) = Some c)
    /\ (forall path, ~ In path (map (fun p => Path.join dir (Path.basename p)) group) ->
          fs' !! path = fs !! path)
    /\ size fs' = (size fs + length group)%nat.
Proof.
  unfold copy_group.
  assert (H : forall j fs,
            Forall readable group -> List.NoDup (map Path.basename group) ->
            (forall p, In p group -> fs !! Path.join dir (Path.basename p) = None) ->
            exists fs' j',
              for_each (member_step read_file dir) group (fs, j) = Ok (fs', j')
              /\ (forall p, In p group ->
                    exists c, read_file p = Ok c
                              /\ fs' !! Path.join dir (Path.basename p) = Some c)
              /\ (forall path,
                    ~ In path (map (fun p => Path.join dir (Path.basename p)) group) ->
                    fs' !! path = fs !! path)
              /\ size fs' = (size fs + length group)%nat).
  { clear fs. induction group as [|p group IH]; intros j fs Hr Hnd Hfree.
    - exists fs, j. split; [reflexivity|]. split; [intros p []|]. split; [reflexivity|].
      simpl. lia.
    - inversion Hr as [|? ? [c Hc] Hr']; subst.
      inversion Hnd as [|? ? Hfresh Hnd']; subst.
      cbn [for_each member_step]. unfold copy2. rewrite Hc. cbn [bind].
      rewrite (destination_fresh dir p j fs (Hfree p (or_introl eq_refl))).
      set (dst := Path.join dir (Path.basename p)).
      assert (Hother : forall q, In q group -> Path.join dir (Path.basename q) <> dst).
      { intros q Hq Heq. apply Hfresh.
        apply join_name_inj in Heq; try apply basename_no_slash.
        rewrite <- Heq. now apply in_map. }
      destruct (IH (S j) (<[dst := c]> fs) Hr' Hnd') as [fs' [j' [Hrun [Hin [Hout Hsz]]]]].
      { intros q Hq. rewrite lookup_insert_ne by (intros Heq; now apply (Hother q Hq)).
        apply Hfree. now right. }
      exists fs', j'. split; [exact Hrun|]. split; [|split].
      + intros q [<-|Hq]; [|now apply Hin]. exists c. split; [assumption|].
        rewrite Hout; [apply lookup_insert_eq|].
        intros Hmem. apply in_map_iff in Hmem. destruct Hmem as [q [Heq Hq]].
        now apply (Hother q Hq).
      + intros path Hnot. rewrite Hout.
        * apply lookup_insert_ne. intros Heq. apply Hnot. left. exact Heq.
        * intros Hmem. apply Hnot. now right.
      + rewrite Hsz, map_size_insert_None by (apply Hfree; now left). simpl. lia. }
  intros Hr Hnd Hfree. destruct (H 0%nat fs Hr Hnd Hfree) as [fs' [j' [Hrun Hrest]]].
  exists fs'. rewrite Hrun. split; [reflexivity | exact Hrest].
Qed.

(** X19: Two members with the same file name, copied into a directory that
    does not hold that name, are both kept: the first under the name, the
    second under the name suffixed with its index 1. *)
Theorem same_name_pair_is_kept (dir p q : string) (cp cq : bytes)
    (fs : gmap string bytes) :
  Path.basename p = Path.basename q ->
  read_file p = Ok cp -> read_file q = Ok cq ->
  fs !! Path.join dir (Path.basename p) = None ->
  exists fs',
    copy_group read_file dir [p; q] fs = Ok fs'
    /\ fs' !! Path.join dir (Path.basename p) = Some cp
    /\ fs' !! Path.join dir (suffixed (Path.basename p) 1) = Some cq
    /\ Path.join dir (suffixed (Path.basename p) 1) <> Path.join dir (Path.basename p).
Proof.
  intros Hname Hp Hq Hfree.
  assert (Hne : Path.join dir (suffixed (Path.basename p) 1)
                <> Path.join dir (Path.basename p)).
  { pose proof (basename_no_slash p) as Hf.
    destruct (suffixed_spec (Path.basename p) 1 Hf) as [Hs [_ Hlen]].
    rewrite (join_relative dir _ Hs), (join_relative dir _ Hf). intros Heq.
    apply str_app_inv_head in Heq. rewrite Heq in Hlen. lia. }
  unfold copy_group. cbn [for_each member_step]. unfold copy2.
  rewrite Hp. cbn [bind for_each member_step]. unfold copy2.
  rewrite (destination_fresh dir p 0 fs Hfree).
  rewrite Hq. cbn [bind]. rewrite destination_taken.
  2:{ rewrite <- Hname, lookup_insert_eq. eauto. }
  rewrite <- Hname. eexists. split; [reflexivity|]. split; [|split].
  - rewrite lookup_insert_ne by exact Hne. apply lookup_insert_eq.
  - apply lookup_insert_eq.
  - exact Hne.
Qed.

End Copying.

Section Output.

Variable read_file : string -> result bytes.
Variable md5_hexdigest : bytes -> string.
Variable image_phash : string -> result string.

Local Abbreviation file_md5 := (calculate_file_md5 read_file md5_hexdigest).
Local Abbreviation image_hash := (calculate_image_hash image_phash).
Local Abbreviation organize := (organize_icons read_file md5_hexdigest image_phash).

(** X20: The run removes no file; every file of the output either was there
    with the same content before the run or holds the content of a member
    of a similar group; and at most one file per member is added. *)
Theorem run_only_adds_copies (walk : list (string * list string)) (output_dir : string)
    (T : Z) (fs0 : gmap string bytes) :
  exists r,
    organize walk output_dir T fs0 = Ok r
    /\ (forall path, is_Some (fs0 !! path) -> is_Some (out_fs r !! path))
    /\ (forall path c, out_fs r !! path = Some c ->
          fs0 !! path = Some c
          \/ exists p, In p (concat (similar_groups r)) /\ read_file p = Ok c)
    /\ (size (out_fs r) <= size fs0 + length (concat (similar_groups r)))%nat.
Proof.
  destruct (organize_icons_run read_file md5_hexdigest image_phash walk output_dir T fs0)
    as [fs2 [Hrun Hloop]].
  eexists. split; [exact Hrun|]. cbn [out_fs similar_groups].
  exact (groups_loop_effect read_file _ _ _ _ _ _ Hloop).
Qed.

(** X21: When no discovered image yields a fingerprint, as for a tree of files
    that the decoder rejects, the images are still discovered and the
    exact duplicates counted, but there is no fingerprint group and no
    similar group, and the output is left as it was. *)
Theorem undecodable_tree_leaves_no_output (walk : list (string * list string))
    (output_dir : string) (T : Z) (fs0 : gmap string bytes) :
  (forall p, In p (scan walk) -> truthy (image_hash p) = false) ->
  exists r,
    organize walk output_dir T fs0 = Ok r
    /\ all_images r = scan walk
    /\ phash_groups r = []
    /\ similar_groups r = []
    /\ unique_count r = 0%nat
    /\ out_fs r = fs0.
Proof.
  intros Hbad.
  destruct (organize_icons_run read_file md5_hexdigest image_phash walk output_dir T fs0)
    as [fs2 [Hrun Hloop]].
  assert (Hnone : group_by image_hash (first_seen file_md5 [] (scan walk)) = []).
  { assert (H : forall l, (forall p, In p l -> truthy (image_hash p) = false) ->
                          group_by image_hash l = []).
    { unfold group_by. induction l as [|p l IH]; intros Hl; [reflexivity|].
      cbn [fold_left]. rewrite group_add_falsy by (apply Hl; now left).
      apply IH. intros q Hq. apply Hl. now right. }
    apply H. intros p Hp. apply Hbad. now apply (first_seen_incl file_md5 _ [] p). }
  rewrite Hnone in Hrun, Hloop. cbn in Hloop. inversion Hloop; subst fs2.
  eexists. split; [exact Hrun|]. repeat split.
Qed.

End Output.

(** ** The image filter *)

Lemma lower_ascii_facts (x : ascii) :
  Path.lower_ascii (Path.lower_ascii x) = Path.lower_ascii x
  /\ Ascii.eqb (Path.lower_ascii x) "." = Ascii.eqb x "."
  /\ Ascii.eqb (Path.lower_ascii x) "/" = Ascii.eqb x "/".
Proof.
  destruct x as [b0 b1 b2 b3 b4 b5 b6 b7].
  destruct b0, b1, b2, b3, b4, b5, b6, b7; vm_compute; repeat split.
Qed.

Lemma lower_idempotent (s : string) : Path.lower (Path.lower s) = Path.lower s.
Proof.
  induction s as [|x s IH]; simpl; [reflexivity|].
  destruct (lower_ascii_facts x) as [-> _]. now rewrite IH.
Qed.

Lemma lower_keeps_marks (s : string) :
  has_char "." (Path.lower s) = has_char "." s
  /\ has_char "/" (Path.lower s) = has_char "/" s.
Proof.
  induction s as [|x s [IH1 IH2]]; simpl; [split; reflexivity|].
  destruct (lower_ascii_facts x) as [_ [-> ->]]. now rewrite IH1, IH2.
Qed.

Lemma splitext_dotted (b e : string) :
  has_char "/" b = false -> has_char "/" e = false -> has_char "." e = false ->
  Path.splitext (b +:+ String "." e)
  = if Path.all_dots b then (b +:+ String "." e, EmptyString) else (b, String "." e).
Proof.
  intros Hb He Hd.
  assert (Hs : has_char "/" (b +:+ String "." e) = false)
    by (rewrite has_char_app, Hb; simpl; exact He).
  now rewrite (splitext_name _ Hs), (rsplit_app "." b e Hd).
Qed.

(** X15: A name [b.e] passes the filter exactly when [b] is not made of dots
    only and [.e], lower-cased, is one of the eight extensions; so the
    case of the extension does not matter, and a name that is only an
    extension, such as [.png], is not an image file. *)
Theorem image_filter_by_extension (b e : string) :
  has_char "/" b = false -> has_char "/" e = false -> has_char "." e = false ->
  is_image_file (b +:+ String "." e)
  = negb (Path.all_dots b)
    && existsb (String.eqb (Path.lower (String "." e))) image_extensions
  /\ is_image_file (b +:+ String "." (Path.lower e)) = is_image_file (b +:+ String "." e).
Proof.
  intros Hb He Hd.
  assert (Hmain : forall e', has_char "/" e' = false -> has_char "." e' = false ->
            is_image_file (b +:+ String "." e')
            = negb (Path.all_dots b)
              && existsb (String.eqb (Path.lower (String "." e'))) image_extensions).
  { intros e' He' Hd'. unfold is_image_file. rewrite (splitext_dotted b e' Hb He' Hd').
    destruct (Path.all_dots b); reflexivity. }
  split; [now apply Hmain|].
  destruct (lower_keeps_marks e) as [L1 L2].
  rewrite (Hmain e He Hd), (Hmain (Path.lower e)) by congruence.
  cbn [Path.lower]. now rewrite lower_idempotent.
Qed.

(** ** Instances *)

Ltac decide_NoDup := apply NoDup_ListNoDup; apply (bool_decide_unpack _); vm_compute; exact I.

Lemma distance_zero_iff_prefix_witness :
  String.prefix "c3a5" "c3a5f00f" = true /\ hamming_distance "c3a5" "c3a5f00f" = 0%nat.
Proof.
  assert (H : String.prefix "c3a5" "c3a5f00f" = true) by reflexivity.
  split; [exact H|].
  apply (proj2 (proj1 (distance_zero_iff_prefix "c3a5" "c3a5f00f"))). left. exact H.
Defined.

Lemma far_apart_groups_stay_apart_witness :
  List.NoDup (keys groups_greedy)
  /\ (forall F G, In F (keys groups_greedy) -> In G (keys groups_greedy) -> F <> G ->
                  (0 < Z.of_nat (hamming_distance F G))%Z)
  /\ seeded 0 groups_greedy = groups_greedy.
Proof.
  assert (H1 : List.NoDup (keys groups_greedy)) by decide_NoDup.
  assert (H2 : forall F G, In F (keys groups_greedy) -> In G (keys groups_greedy) ->
                           F <> G -> (0 < Z.of_nat (hamming_distance F G))%Z).
  { intros F G HF HG Hne. vm_compute in HF, HG.
    destruct HF as [<-|[<-|[<-|[]]]]; destruct HG as [<-|[<-|[<-|[]]]];
      try (exfalso; apply Hne; reflexivity); vm_compute; reflexivity. }
  split; [exact H1|]. split; [exact H2|].
  exact (proj1 (far_apart_groups_stay_apart 0 groups_greedy H1 H2)).
Defined.

Lemma exact_thresholds_merge_nothing_witness :
  List.NoDup (keys groups_greedy) /\ (-1 < 0)%Z
  /\ fst (cluster (-1) groups_greedy) = retained groups_greedy.
Proof.
  assert (H1 : List.NoDup (keys groups_greedy)) by decide_NoDup.
  assert (H2 : (-1 < 0)%Z) by lia.
  split; [exact H1|]. split; [exact H2|].
  exact (exact_thresholds_merge_nothing (-1) groups_greedy H1 (or_introl H2)).
Defined.

Lemma near_groups_form_one_cluster_witness :
  List.NoDup (keys groups_greedy)
  /\ (forall G, In G (keys (tl groups_greedy)) ->
        (Z.of_nat (hamming_distance "0000000000000000" G) <= 3)%Z)
  /\ seeded 3 groups_greedy = [("0000000000000000", paths_of groups_greedy)].
Proof.
  assert (H1 : List.NoDup (keys groups_greedy)) by decide_NoDup.
  assert (H2 : forall G, In G (keys (tl groups_greedy)) ->
                 (Z.of_nat (hamming_distance "0000000000000000" G) <= 3)%Z).
  { intros G HG. vm_compute in HG. destruct HG as [<-|[<-|[]]]; vm_compute; discriminate. }
  split; [exact H1|]. split; [exact H2|].
  exact (proj1 (near_groups_form_one_cluster 3 "0000000000000000" ["e.png"]
                  (tl groups_greedy) H1 H2)).
Defined.

Lemma threshold_of_fingerprint_length_merges_all_witness :
  List.NoDup (keys groups_greedy)
  /\ (Z.of_nat (String.length "0000000000000000") <= 16)%Z
  /\ seeded 16 groups_greedy = [("0000000000000000", paths_of groups_greedy)].
Proof.
  assert (H1 : List.NoDup (keys groups_greedy)) by decide_NoDup.
  assert (H2 : (Z.of_nat (String.length "0000000000000000") <= 16)%Z)
    by (vm_compute; discriminate).
  split; [exact H1|]. split; [exact H2|].
  exact (threshold_of_fingerprint_length_merges_all 16 "0000000000000000" ["e.png"]
           (tl groups_greedy) H1 H2).
Defined.

Lemma group_by_collects_witness :
  In "r/b.png" ["r/a.png"; "r/b.png"; "r/c.png"]
  /\ table_key world_three "r/b.png" = Some "c3a5f00f3c5a0ff0"
  /\ In ("c3a5f00f3c5a0ff0", ["r/a.png"; "r/b.png"])
        (group_by (table_key world_three) ["r/a.png"; "r/b.png"; "r/c.png"]).
Proof.
  assert (H1 : In "r/b.png" ["r/a.png"; "r/b.png"; "r/c.png"]) by (right; left; reflexivity).
  assert (H2 : table_key world_three "r/b.png" = Some "c3a5f00f3c5a0ff0") by reflexivity.
  assert (H3 : "c3a5f00f3c5a0ff0" <> EmptyString) by discriminate.
  split; [exact H1|]. split; [exact H2|].
  exact (proj1 (proj2 (group_by_collects (table_key world_three)
                         ["r/a.png"; "r/b.png"; "r/c.png"])
                  "r/b.png" "c3a5f00f3c5a0ff0" H1 H2 H3)).
Defined.

Lemma clusters_partition_groups_witness :
  List.NoDup (keys groups_greedy)
  /\ Permutation (paths_of (seeded 1 groups_greedy)) (paths_of groups_greedy).
Proof.
  assert (H1 : List.NoDup (keys groups_greedy)) by decide_NoDup.
  split; [exact H1|]. exact (proj1 (clusters_partition_groups 1 groups_greedy H1)).
Defined.

Lemma similar_groups_are_disjoint_witness :
  List.NoDup (scan walk_three)
  /\ exists r, run world_three walk_three "out" 2 ∅ = Ok r
               /\ List.NoDup (concat (similar_groups r)).
Proof.
  assert (H1 : List.NoDup (scan walk_three)) by decide_NoDup.
  split; [exact H1|].
  destruct (similar_groups_are_disjoint (world_read world_three) toy_md5
              (world_phash world_three) walk_three "out" 2 ∅ H1) as [r [Hrun [Hnd _]]].
  exists r. split; [exact Hrun | exact Hnd].
Defined.

Lemma joined_name_round_trip_witness :
  has_char "/" "icon.PNG" = false
  /\ Path.basename (Path.join "r/a.b" "icon.PNG") = "icon.PNG"
  /\ is_image_file (Path.join "r/a.b" "icon.PNG") = is_image_file "icon.PNG".
Proof.
  assert (H : has_char "/" "icon.PNG" = false) by reflexivity.
  split; [exact H|]. exact (joined_name_round_trip "r/a.b" "icon.PNG" H).
Defined.

Lemma renamed_copy_keeps_extension_witness :
  has_char "/" "icon.png" = false
  /\ snd (Path.splitext (suffixed "icon.png" 2)) = snd (Path.splitext "icon.png").
Proof.
  assert (H : has_char "/" "icon.png" = false) by reflexivity.
  split; [exact H|]. exact (proj1 (renamed_copy_keeps_extension "out" "icon.png" 2 H)).
Defined.

Lemma image_filter_by_extension_witness :
  has_char "/" "icon" = false /\ has_char "/" "PNG" = false /\ has_char "." "PNG" = false
  /\ is_image_file ("icon" +:+ String "." (Path.lower "PNG"))
     = is_image_file ("icon" +:+ String "." "PNG").
Proof.
  assert (H1 : has_char "/" "icon" = false) by reflexivity.
  assert (H2 : has_char "/" "PNG" = false) by reflexivity.
  assert (H3 : has_char "." "PNG" = false) by reflexivity.
  split; [exact H1|]. split; [exact H2|]. split; [exact H3|].
  exact (proj2 (image_filter_by_extension "icon" "PNG" H1 H2 H3)).
Defined.

Lemma distinct_names_copied_verbatim_witness :
  Forall (readable (world_read world_clash)) ["r/a/icon.png"; "r/b/icon_2.png"]
  /\ List.NoDup (map Path.basename ["r/a/icon.png"; "r/b/icon_2.png"])
  /\ exists fs',
       copy_group (world_read world_clash) "out/g" ["r/a/icon.png"; "r/b/icon_2.png"] ∅
       = Ok fs'
       /\ size fs' = 2%nat.
Proof.
  assert (H1 : Forall (readable (world_read world_clash))
                 ["r/a/icon.png"; "r/b/icon_2.png"])
    by (repeat constructor; eexists; reflexivity).
  assert (H2 : List.NoDup (map Path.basename ["r/a/icon.png"; "r/b/icon_2.png"]))
    by decide_NoDup.
  assert (H3 : forall p, In p ["r/a/icon.png"; "r/b/icon_2.png"] ->
                 (∅ : gmap string bytes) !! Path.join "out/g" (Path.basename p) = None)
    by (intros p _; apply lookup_empty).
  split; [exact H1|]. split; [exact H2|].
  destruct (distinct_names_copied_verbatim (world_read world_clash) "out/g"
              ["r/a/icon.png"; "r/b/icon_2.png"] ∅ H1 H2 H3) as [fs' [Hrun [_ [_ Hsz]]]].
  exists fs'. split; [exact Hrun | exact Hsz].
Defined.

Lemma same_name_pair_is_kept_witness :
  Path.basename "r/a/icon.png" = Path.basename "r/c/icon.png"
  /\ exists fs',
       copy_group (world_read world_clash) "out/g" ["r/a/icon.png"; "r/c/icon.png"] ∅
       = Ok fs'
       /\ fs' !! Path.join "out/g" (Path.basename "r/a/icon.png") = Some [Byte.x01]
       /\ fs' !! Path.join "out/g" (suffixed (Path.basename "r/a/icon.png") 1)
          = Some [Byte.x03].
Proof.
  assert (H1 : Path.basename "r/a/icon.png" = Path.basename "r/c/icon.png") by reflexivity.
  assert (H2 : world_read world_clash "r/a/icon.png" = Ok [Byte.x01]) by reflexivity.
  assert (H3 : world_read world_clash "r/c/icon.png" = Ok [Byte.x03]) by reflexivity.
  assert (H4 : (∅ : gmap string bytes) !! Path.join "out/g" (Path.basename "r/a/icon.png")
               = None) by apply lookup_empty.
  split; [exact H1|].
  destruct (same_name_pair_is_kept (world_read world_clash) "out/g" "r/a/icon.png"
              "r/c/icon.png" [Byte.x01] [Byte.x03] ∅ H1 H2 H3 H4)
    as [fs' [Hrun [Ha [Hc _]]]].
  exists fs'. split; [exact Hrun|]. split; [exact Ha | exact Hc].
Defined.

Lemma undecodable_tree_leaves_no_output_witness :
  (forall p, In p (scan walk_svg) ->
     truthy (calculate_image_hash (world_phash world_svg) p) = false)
  /\ exists r, run world_svg walk_svg "out" 2 ∅ = Ok r
               /\ all_images r = ["r/drawing.svg"] /\ out_fs r = ∅.
Proof.
  assert (H : forall p, In p (scan walk_svg) ->
                truthy (calculate_image_hash (world_phash world_svg) p) = false)
    by (intros p Hp; vm_compute in Hp; destruct Hp as [<-|[]]; reflexivity).
  split; [exact H|].
  destruct (undecodable_tree_leaves_no_output (world_read world_svg) toy_md5
              (world_phash world_svg) walk_svg "out" 2 ∅ H)
    as [r [Hrun [Hall [_ [_ [_ Hfs]]]]]].
  exists r. split; [exact Hrun|]. split; [|exact Hfs]. rewrite Hall. reflexivity.
Defined.

(** ** Discovery *)

Lemma filter_map_commute {A B : Type} (f : B -> bool) (g : A -> B) (l : list A) :
  List.filter f (map g l) = map g (List.filter (fun x => f (g x)) l).
Proof.
  induction l as [|x l IH]; [reflexivity|]. simpl.
  destruct (f (g x)); simpl; now rewrite IH.
Qed.

(** X16: When no listed file name holds a slash, the scan keeps exactly the
    files whose own name passes the filter, joined to their directory, in
    the order of the walk; the file name of every discovered path is the
    listed name. *)
Theorem scan_filters_by_name (walk : list (string * list string)) :
  (forall dir files f, In (dir, files) walk -> In f files -> has_char "/" f = false) ->
  scan walk
  = flat_map (fun entry => map (Path.join (fst entry))
                             (List.filter is_image_file (snd entry))) walk
  /\ map Path.basename (scan walk)
     = flat_map (fun entry => List.filter is_image_file (snd entry)) walk.
Proof.
  intros Hnames. unfold scan. induction walk as [|[dir files] walk IH];
    [split; reflexivity|].
  assert (Hrest : forall d fl f, In (d, fl) walk -> In f fl -> has_char "/" f = false)
    by (intros d fl f Hin; apply (Hnames d fl f); now right).
  destruct (IH Hrest) as [IH1 IH2].
  assert (Hhere : forall f, In f files -> has_char "/" f = false)
    by (intros f; apply (Hnames dir files f); now left).
  assert (Hfilter : List.filter is_image_file (map (Path.join dir) files)
                    = map (Path.join dir) (List.filter is_image_file files)).
  { rewrite filter_map_commute. f_equal. apply filter_ext_in. intros f Hf.
    now apply is_image_file_join, Hhere. }
  cbn [flat_map fst snd]. rewrite Hfilter, IH1. split; [reflexivity|].
  rewrite map_app, <- IH1, IH2. f_equal.
  rewrite map_map. clear Hfilter.
  assert (Hsub : forall f, In f (List.filter is_image_file files) -> has_char "/" f = false)
    by (intros f Hf; apply filter_In in Hf; now apply Hhere).
  induction (List.filter is_image_file files) as [|f l IHl]; [reflexivity|].
  simpl. rewrite (basename_join dir f) by (apply Hsub; now left).
  f_equal. apply IHl. intros g Hg. apply Hsub. now right.
Qed.

Lemma scan_filters_by_name_witness :
  (forall dir files f, In (dir, files) walk_faulty -> In f files ->
                       has_char "/" f = false)
  /\ map Path.basename (scan walk_faulty) = ["locked.png"; "drawing.svg"; "ok.png"].
Proof.
  assert (H : forall dir files f, In (dir, files) walk_faulty -> In f files ->
                has_char "/" f = false).
  { intros dir files f Hin Hf. vm_compute in Hin. destruct Hin as [Heq|[]].
    inversion Heq; subst. vm_compute in Hf.
    destruct Hf as [<-|[<-|[<-|[]]]]; reflexivity. }
  split; [exact H|]. rewrite (proj2 (scan_filters_by_name walk_faulty H)). reflexivity.
Defined.

(** ** Identical files *)

Lemma NoDup_map_eq {A B : Type} (f : A -> B) (l : list A) (x y : A) :
  List.NoDup (map f l) -> In x l -> In y l -> f x = f y -> x = y.
Proof.
  induction l as [|z l IH]; intros Hnd Hx Hy Heq; [destruct Hx|].
  inversion Hnd as [|? ? Hfresh Hnd']; subst.
  destruct Hx as [->|Hx], Hy as [->|Hy]; try reflexivity.
  - exfalso. apply Hfresh. rewrite Heq. now apply in_map.
  - exfalso. apply Hfresh. rewrite <- Heq. now apply in_map.
  - now apply IH.
Qed.

Section Identical.

Variable read_file : string -> result bytes.
Variable md5_hexdigest : bytes -> string.

Local Abbreviation file_md5 := (calculate_file_md5 read_file md5_hexdigest).

(** X13: Two discovered files with the same content are in the same digest
    group, whatever their names, and at most one of them is kept as a
    representative. *)
Theorem identical_files_share_a_group (imgs : list string) (p q : string)
    (content : bytes) :
  In p imgs -> In q imgs ->
  read_file p = Ok content -> read_file q = Ok content ->
  md5_hexdigest content <> EmptyString ->
  exists group uniq dups,
    In (md5_hexdigest content, group) (group_by file_md5 imgs)
    /\ In p group /\ In q group
    /\ dedup (group_by file_md5 imgs) = Ok (uniq, dups)
    /\ (In p uniq -> In q uniq -> p = q).
Proof.
  intros Hp Hq Rp Rq Hne.
  assert (Kp : file_md5 p = Some (md5_hexdigest content))
    by (unfold calculate_file_md5; now rewrite Rp).
  assert (Kq : file_md5 q = Some (md5_hexdigest content))
    by (unfold calculate_file_md5; now rewrite Rq).
  destruct (group_by_member file_md5 imgs p _ Hp Kp Hne) as [Hg Hpin].
  destruct (group_by_member file_md5 imgs q _ Hq Kq Hne) as [_ Hqin].
  eexists _, _, _. split; [exact Hg|]. split; [exact Hpin|]. split; [exact Hqin|].
  split; [apply dedup_group_by|].
  intros Up Uq. apply (NoDup_map_eq file_md5 _ p q (first_seen_distinct file_md5 imgs) Up Uq).
  now rewrite Kp, Kq.
Qed.

End Identical.

Lemma identical_files_share_a_group_witness :
  In "r/a.png" (scan walk_three) /\ In "r/b.png" (scan walk_three)
  /\ world_read world_three "r/a.png" = Ok [Byte.x01]
  /\ world_read world_three "r/b.png" = Ok [Byte.x01]
  /\ toy_md5 [Byte.x01] <> EmptyString
  /\ exists group,
       In (toy_md5 [Byte.x01], group)
          (group_by (calculate_file_md5 (world_read world_three) toy_md5) (scan walk_three))
       /\ In "r/a.png" group /\ In "r/b.png" group.
Proof.
  assert (H1 : In "r/a.png" (scan walk_three)) by (vm_compute; left; reflexivity).
  assert (H2 : In "r/b.png" (scan walk_three)) by (vm_compute; right; left; reflexivity).
  assert (H3 : world_read world_three "r/a.png" = Ok [Byte.x01]) by reflexivity.
  assert (H4 : world_read world_three "r/b.png" = Ok [Byte.x01]) by reflexivity.
  assert (H5 : toy_md5 [Byte.x01] <> EmptyString) by discriminate.
  repeat (split; [assumption|]).
  destruct (identical_files_share_a_group (world_read world_three) toy_md5
              (scan walk_three) "r/a.png" "r/b.png" [Byte.x01] H1 H2 H3 H4 H5)
    as [group [_ [_ [Hg [Ha [Hb _]]]]]].
  exists group. split; [exact Hg|]. split; [exact Ha | exact Hb].
Defined.
